(** * libOpenDRIVE: the road surface evaluator of [Road.cpp]

    A shallow embedding of [Crossfall::get_crossfall], [Road::get_lanesection],
    [Road::get_xyz], [Road::get_transformation_matrix] and
    [Road::get_surface_pt], and the properties of the evaluator stated about
    them.

    Numbers.  A C++ [double] is read as a real number: [+], [-], [*], [/],
    [std::abs], [std::tan] and [std::sqrt] are the operations of [R].
    Rounding, infinities and NaN are outside the model.  No statement relies
    on the value of a division by zero: where a result depends on a quotient,
    the hypotheses keep its divisor away from zero.

    Containers.  A [std::map<double, V>] is the list of its entries in
    iteration order, that is by strictly increasing key; an iterator is a
    position in that list ([begin() = 0], [end() = size()]). *)

From Stdlib Require Import Reals Lra Lia List ZArith Bool Sorted String.
Import ListNotations.
Local Open Scope R_scope.

(** ** Comparisons of doubles as booleans *)

Definition Rltb (x y : R) : bool := if Rlt_dec x y then true else false.
Definition Reqb (x y : R) : bool := if Req_dec_T x y then true else false.

(** ** [std::map<double, V>] *)

Module StdMap.

Definition t (V : Type) : Type := list (R * V).

Definition keys {V} (m : t V) : list R := map fst m.

(** The class invariant of [std::map]: keys strictly increase along the
    iteration order. *)
Definition ordered {V} (m : t V) : Prop := StronglySorted Rlt (keys m).

Definition size {V} (m : t V) : nat := List.length m.

Definition begin {V} (m : t V) : nat := 0%nat.
Definition end_ {V} (m : t V) : nat := size m.

(** [*it]; [None] stands for dereferencing [end()]. *)
Definition deref {V} (m : t V) (it : nat) : option (R * V) := nth_error m it.

(** [std::next(it)]. *)
Definition next (it : nat) : nat := S it.

(** [m.upper_bound(s)]: the first position whose key is greater than [s],
    [end()] when there is none. *)
Fixpoint upper_bound {V} (m : t V) (s : R) : nat :=
  match m with
  | [] => 0%nat
  | (k, _) :: m' => if Rltb s k then 0%nat else S (upper_bound m' s)
  end.

(** [m.find(k)] followed by [m.at(k)]: the value stored under exactly [k]. *)
Fixpoint find {V} (m : t V) (k : R) : option V :=
  match m with
  | [] => None
  | (k', v) :: m' => if Reqb k' k then Some v else find m' k
  end.

End StdMap.

(** ** Linear algebra ([Math.hpp]) *)

Record Vec3D : Type := mkVec3D { v0 : R; v1 : R; v2 : R }.

(** A [Mat3D] is an array of three rows. *)
Record Mat3D : Type := mkMat3D { row0 : Vec3D; row1 : Vec3D; row2 : Vec3D }.

Definition dot (a b : Vec3D) : R := v0 a * v0 b + v1 a * v1 b + v2 a * v2 b.

(** Modelled from the spec: [crossProduct] of Math.hpp, the cross product of
    two 3D vectors (section 2, linear algebra primitives). *)
Definition crossProduct (a b : Vec3D) : Vec3D :=
  mkVec3D (v1 a * v2 b - v2 a * v1 b)
          (v2 a * v0 b - v0 a * v2 b)
          (v0 a * v1 b - v1 a * v0 b).

(** Modelled from the spec: [norm] of Math.hpp, the Euclidean length. *)
Definition norm (v : Vec3D) : R := sqrt (dot v v).

(** Modelled from the spec: [normalize] of Math.hpp, every component divided
    by the Euclidean length (section 2, normalization). *)
Definition normalize (v : Vec3D) : Vec3D :=
  let n := norm v in
  mkVec3D (v0 v / n) (v1 v / n) (v2 v / n).

(** Modelled from the spec: [MatVecMultiplication] of Math.hpp, entry [i] of
    the result is row [i] of the matrix times the vector. *)
Definition MatVecMultiplication (m : Mat3D) (v : Vec3D) : Vec3D :=
  mkVec3D (dot (row0 m) v) (dot (row1 m) v) (dot (row2 m) v).

(** ** Polynomials and splines *)

Module Poly3.

(** Modelled from the spec: [Poly3] (section 3), coefficients [a b c d]
    evaluated as [a + b u + c u^2 + d u^3] with [u = s - s0]. *)
Record t : Type := mk { s0 : R; a : R; b : R; c : R; d : R }.

Definition get (p : t) (s : R) : R :=
  let u := s - s0 p in
  a p + b p * u + c p * (u * u) + d p * (u * u * u).

End Poly3.

Module CubicSpline.

Record t : Type := mk { s_start_to_poly : StdMap.t Poly3.t }.

(** Modelled from the spec: [CubicSpline::get] (section 4.1): 0 when empty,
    otherwise the piece with the greatest start not exceeding [s], the first
    piece when every start exceeds [s], evaluated at [s]. *)
Definition get (c : t) (s : R) : R :=
  let m := s_start_to_poly c in
  if (0 <? StdMap.size m)%nat then
    let it := StdMap.upper_bound m s in
    let it := if negb (it =? StdMap.begin m)%nat then (it - 1)%nat else it in
    match StdMap.deref m it with
    | Some (_, p) => Poly3.get p s
    | None => 0
    end
  else 0.

End CubicSpline.

Inductive Side : Type := Left | Right | Both.

Definition Side_eqb (x y : Side) : bool :=
  match x, y with
  | Left, Left | Right, Right | Both, Both => true
  | _, _ => false
  end.

Module Crossfall.

(** [struct Crossfall : CubicSpline] with the side tag of each piece. *)
Record t : Type := mk {
  spline : CubicSpline.t;
  sides : StdMap.t Side
}.

Definition s_start_to_poly (c : t) : StdMap.t Poly3.t :=
  CubicSpline.s_start_to_poly (spline c).

(** Road.cpp 12-35.  The local [poly] of line 14 is never read and is left
    out.  The last branch of the [match] is the dereference of [end()], which
    the guard on the size rules out. *)
Definition get_crossfall (c : t) (s : R) (on_left_side : bool) : R :=
  if (0 <? StdMap.size (s_start_to_poly c))%nat then
    let target_poly_iter := StdMap.upper_bound (s_start_to_poly c) s in
    let target_poly_iter :=
      if negb (target_poly_iter =? StdMap.begin (s_start_to_poly c))%nat
      then (target_poly_iter - 1)%nat else target_poly_iter in
    match StdMap.deref (s_start_to_poly c) target_poly_iter with
    | Some (first, second) =>
        let side :=
          match StdMap.find (sides c) first with
          | Some sd => sd
          | None => Both
          end in
        if on_left_side && Side_eqb side Right then 0
        else if negb on_left_side && Side_eqb side Left then 0
        else Poly3.get second s
    | None => 0
    end
  else 0.

End Crossfall.

(** ** Lanes and lane sections *)

Record HeightOffset : Type := mkHeightOffset { inner : R; outer : R }.

Module Lane.

Record t : Type := mk {
  id : Z;
  level : bool;
  inner_border : CubicSpline.t;
  outer_border : CubicSpline.t;
  s_to_height_offset : StdMap.t HeightOffset
}.

End Lane.

Module LaneSection.

(** [LaneSection::get_lane] is defined outside Road.cpp: a lane section is
    seen through it.  [None] is the null pointer. *)
Record t : Type := mk {
  s0 : R;
  get_lane : R -> R -> option Lane.t
}.

(** [std::shared_ptr<LaneSection>]; [None] is the null pointer. *)
Definition ptr : Type := option t.

End LaneSection.

Module RefLine.

(** [RefLine::get_grad] and [RefLine::get_xyz] are defined outside Road.cpp:
    a reference line is seen through these two member functions. *)
Record t : Type := mk {
  get_grad : R -> Vec3D;
  get_xyz : R -> Vec3D
}.

End RefLine.

(** ** The road *)

(** What [printf] writes at Road.cpp 101: the format has two arguments, the
    road id and [s]. *)
Inductive Diagnostic : Type :=
| could_not_get_lane_section (road_id : string) (s : R).

Module Road.

Record t : Type := mk {
  id : string;
  ref_line : RefLine.t;
  superelevation : CubicSpline.t;
  crossfall : Crossfall.t;
  s_to_lanesection : StdMap.t LaneSection.ptr
}.

(** Road.cpp 55-66.  Line 62 returns the stored pointer as it is, null or
    not.  The last branch of the [match] is the dereference of [end()],
    which the guard on the size rules out. *)
Definition get_lanesection (r : t) (s : R) : LaneSection.ptr :=
  if (0 <? StdMap.size (s_to_lanesection r))%nat then
    let target_lane_sec_iter := StdMap.upper_bound (s_to_lanesection r) s in
    let target_lane_sec_iter :=
      if negb (target_lane_sec_iter =? StdMap.begin (s_to_lanesection r))%nat
      then (target_lane_sec_iter - 1)%nat else target_lane_sec_iter in
    match StdMap.deref (s_to_lanesection r) target_lane_sec_iter with
    | Some (_, second) => second
    | None => None
    end
  else None.

(** Road.cpp 82-94. *)
Definition get_transformation_matrix (r : t) (s : R) : Mat3D :=
  let s_vec := RefLine.get_grad (ref_line r) s in
  let superelevation := CubicSpline.get (superelevation r) s in
  let e_t := normalize (mkVec3D (- v1 s_vec) (v0 s_vec)
                                (tan superelevation * Rabs (v1 s_vec))) in
  let e_h := normalize (crossProduct s_vec e_t) in
  let p0 := RefLine.get_xyz (ref_line r) s in
  mkMat3D (mkVec3D (v0 e_t) (v0 e_h) (v0 p0))
          (mkVec3D (v1 e_t) (v1 e_h) (v1 p0))
          (mkVec3D (v2 e_t) (v2 e_h) (v2 p0)).

(** Road.cpp 74-80. *)
Definition get_xyz (r : t) (s t h : R) : Vec3D :=
  let trans_mat := get_transformation_matrix r s in
  MatVecMultiplication trans_mat (mkVec3D t h 1).

(** Road.cpp 107-119: the value of [h_t] when line 121 is reached. *)
Definition slope_h_t (r : t) (lane : Lane.t) (s t : R) : R :=
  let t_inner_brdr := CubicSpline.get (Lane.inner_border lane) s in
  if Lane.level lane then
    let h_inner_brdr :=
      - tan (Crossfall.get_crossfall (crossfall r) s (Lane.id lane >? 0)%Z)
      * Rabs t_inner_brdr in
    let superelev := CubicSpline.get (superelevation r) s in
    h_inner_brdr + tan superelev * (t - t_inner_brdr)
  else
    - tan (Crossfall.get_crossfall (crossfall r) s (Lane.id lane >? 0)%Z)
    * Rabs t.

(** Road.cpp 121-146: from the value of [h_t] at line 121 to its value at
    line 148.  [t_inner_brdr] is the local of line 107. *)
Definition offset_h_t (lane : Lane.t) (s t h_t : R) : R :=
  let t_inner_brdr := CubicSpline.get (Lane.inner_border lane) s in
  if (0 <? StdMap.size (Lane.s_to_height_offset lane))%nat then
    let height_offs := Lane.s_to_height_offset lane in
    let s0_height_offs_iter := StdMap.upper_bound height_offs s in
    let s0_height_offs_iter :=
      if negb (s0_height_offs_iter =? StdMap.begin height_offs)%nat
      then (s0_height_offs_iter - 1)%nat else s0_height_offs_iter in
    match StdMap.deref height_offs s0_height_offs_iter with
    | Some (first, second) =>
        let t_outer_brdr := CubicSpline.get (Lane.outer_border lane) s in
        let inner_height := inner second in
        let outer_height := outer second in
        let p_t :=
          if negb (Reqb t_outer_brdr t_inner_brdr)
          then (t - t_inner_brdr) / (t_outer_brdr - t_inner_brdr) else 0 in
        let h_t := h_t + (p_t * (outer_height - inner_height) + inner_height) in
        match StdMap.deref height_offs (StdMap.next s0_height_offs_iter) with
        | Some (next_first, next_second) =>
            let ds := next_first - first in
            let d_lh_inner := inner next_second - inner_height in
            let dh_inner := (d_lh_inner / ds) * (s - first) in
            let d_lh_outer := outer next_second - outer_height in
            let dh_outer := (d_lh_outer / ds) * (s - first) in
            h_t + (p_t * (dh_outer - dh_inner) + dh_inner)
        | None => h_t
        end
    | None => h_t
    end
  else h_t.

(** Road.cpp 96-149.  The first component is what the call prints, the second
    the returned point; [None] is the undefined behaviour of line 107 on a
    null [lane]. *)
Definition get_surface_pt (r : t) (s t : R) : list Diagnostic * option Vec3D :=
  match get_lanesection r s with
  | None => ([could_not_get_lane_section (id r) s], Some (get_xyz r s t 0))
  | Some lanesection =>
      match LaneSection.get_lane lanesection s t with
      | None => ([], None)
      | Some lane =>
          let h_t := slope_h_t r lane s t in
          let h_t := offset_h_t lane s t h_t in
          ([], Some (get_xyz r s t h_t))
      end
  end.

End Road.

(** ** Vocabulary of the statements *)

Definition col0 (m : Mat3D) : Vec3D := mkVec3D (v0 (row0 m)) (v0 (row1 m)) (v0 (row2 m)).
Definition col1 (m : Mat3D) : Vec3D := mkVec3D (v1 (row0 m)) (v1 (row1 m)) (v1 (row2 m)).
Definition col2 (m : Mat3D) : Vec3D := mkVec3D (v2 (row0 m)) (v2 (row1 m)) (v2 (row2 m)).

Definition vadd (x y : Vec3D) : Vec3D :=
  mkVec3D (v0 x + v0 y) (v1 x + v1 y) (v2 x + v2 y).
Definition vscale (k : R) (x : Vec3D) : Vec3D :=
  mkVec3D (k * v0 x) (k * v1 x) (k * v2 x).

(** Determinant of the matrix whose columns are [x], [y], [z]. *)
Definition det3 (x y z : Vec3D) : R := dot x (crossProduct y z).

(** The lateral axis before normalization, as section 4.6 writes it. *)
Definition lateral_axis (g : Vec3D) (phi : R) : Vec3D :=
  mkVec3D (- v1 g) (v0 g) (tan phi * Rabs (v1 g)).

(** "Greatest key not exceeding [s], the first entry when every key exceeds
    [s]", said without reference to positions. *)
Definition selects {V} (m : StdMap.t V) (s : R) (e : R * V) : Prop :=
  In e m /\
  ((fst e <= s /\ forall e', In e' m -> fst e' <= s -> fst e' <= fst e) \/
   (forall e', In e' m -> s < fst e' /\ fst e <= fst e')).

(** [e1] is the successor entry of [e]: the entry with the least key above
    the key of [e]. *)
Definition successor {V} (m : StdMap.t V) (e e1 : R * V) : Prop :=
  In e1 m /\ fst e < fst e1 /\
  forall e', In e' m -> fst e < fst e' -> fst e1 <= fst e'.

(** The position the three lookups of Road.cpp end on: [upper_bound],
    stepped back once unless it is [begin()]. *)
Definition selected {V} (m : StdMap.t V) (s : R) : nat :=
  let it := StdMap.upper_bound m s in
  if negb (it =? StdMap.begin m)%nat then (it - 1)%nat else it.

(** The side tag of the piece starting at [k], [Both] when none is stored. *)
Definition side_of (c : Crossfall.t) (k : R) : Side :=
  match StdMap.find (Crossfall.sides c) k with
  | Some sd => sd
  | None => Both
  end.

(** The lateral parameter of section 4.6. *)
Definition p_t_of (t t_in t_out : R) : R :=
  if Reqb t_out t_in then 0 else (t - t_in) / (t_out - t_in).

(** The base contribution of an offset entry. *)
Definition base_contribution (p_t : R) (cur : HeightOffset) : R :=
  p_t * (outer cur - inner cur) + inner cur.

(** The correction in [s] between an entry at [s_entry] and its successor at
    [s_next], as section 4.6 writes it. *)
Definition successor_contribution (p_t s s_entry s_next : R)
    (cur nxt : HeightOffset) : R :=
  let ds := s_next - s_entry in
  let d_inner := inner nxt - inner cur in
  let d_outer := outer nxt - outer cur in
  p_t * (d_outer / ds - d_inner / ds) * (s - s_entry)
  + (d_inner / ds) * (s - s_entry).

(** ** Scenarios of section 8 *)

Definition const_spline (s_start v : R) : CubicSpline.t :=
  CubicSpline.mk [(s_start, Poly3.mk s_start v 0 0 0)].

Definition empty_spline : CubicSpline.t := CubicSpline.mk [].

(** Modelled from the spec: a [RefLine] made of one [Line] from [(x0, y0)]
    with heading [hdg0], starting at station 0, with an empty elevation
    profile (sections 3 and 4.3): the point is
    [(x0 + s cos hdg0, y0 + s sin hdg0, 0)], the gradient the unit tangent
    with a zero vertical component. *)
Definition line_ref_line (x0 y0 hdg0 : R) : RefLine.t :=
  RefLine.mk
    (fun _ => mkVec3D (cos hdg0) (sin hdg0) 0)
    (fun s => mkVec3D (x0 + s * cos hdg0) (y0 + s * sin hdg0) 0).

(** One left lane, inner border 0, outer border 3, not level. *)
Definition left_lane (offs : StdMap.t HeightOffset) : Lane.t :=
  Lane.mk 1 false (const_spline 0 0) (const_spline 0 3) offs.

Definition one_lane_section (lane : Lane.t) : LaneSection.t :=
  LaneSection.mk 0 (fun _ _ => Some lane).

Definition no_crossfall : Crossfall.t := Crossfall.mk empty_spline [].

(** The straight road of section 8 with a constant superelevation [phi]. *)
Definition straight_road (phi : R) (sections : StdMap.t LaneSection.ptr) : Road.t :=
  Road.mk "1"%string (line_ref_line 0 0 0) (const_spline 0 phi) no_crossfall sections.

Definition plain_sections : StdMap.t LaneSection.ptr :=
  [(0, Some (one_lane_section (left_lane [])))].

(** The same lane layout in two consecutive sections, starting at 0 and 50. *)
Definition two_sections : StdMap.t LaneSection.ptr :=
  [(0, Some (one_lane_section (left_lane [])));
   (50, Some (one_lane_section (left_lane [])))].

(** A map whose second entry stores a null pointer. *)
Definition dangling_sections : StdMap.t LaneSection.ptr :=
  [(0, Some (one_lane_section (left_lane []))); (50, None)].

(** The two height offsets of the interpolation scenario. *)
Definition two_offsets : StdMap.t HeightOffset :=
  [(0, mkHeightOffset 0 0.1); (10, mkHeightOffset 0.05 0.2)].

(** A crossfall with a single left-only piece of constant value 0.05. *)
Definition left_only_crossfall (s_start : R) : Crossfall.t :=
  Crossfall.mk (const_spline s_start 0.05) [(s_start, Left)].

(** ** The set of lane sections *)

(** [std::set<std::shared_ptr<LaneSection>, Cmp>::insert] on the elements in
    iteration order.  The comparator [Cmp] of the set type is declared
    outside Road.cpp and is the parameter [lt]; an element the comparator
    holds equivalent to a present one is not inserted. *)
Fixpoint set_insert (lt : LaneSection.ptr -> LaneSection.ptr -> bool)
    (x : LaneSection.ptr) (l : list LaneSection.ptr) : list LaneSection.ptr :=
  match l with
  | [] => [x]
  | y :: l' =>
      if lt x y then x :: y :: l'
      else if lt y x then y :: set_insert lt x l'
      else y :: l'
  end.

(** Road.cpp 37-44 and 46-53: the two overloads run the same loop. *)
Definition get_lanesections (lt : LaneSection.ptr -> LaneSection.ptr -> bool)
    (r : Road.t) : list LaneSection.ptr :=
  fold_left (fun lanesections s_lansection =>
               set_insert lt (snd s_lansection) lanesections)
            (Road.s_to_lanesection r) [].

(** Equivalence under the comparator of the set. *)
Definition set_equiv (lt : LaneSection.ptr -> LaneSection.ptr -> bool)
    (x y : LaneSection.ptr) : Prop :=
  lt x y = false /\ lt y x = false.

(** A comparator of lane sections by their start, for the scenarios; a null
    pointer, which the scenarios it is used on do not store, is ordered
    before every section. *)
Definition s0_lt (x y : LaneSection.ptr) : bool :=
  match x, y with
  | Some a, Some b => Rltb (LaneSection.s0 a) (LaneSection.s0 b)
  | None, Some _ => true
  | _, None => false
  end.

(** Linear interpolation between [x] at [k] and [y] at [k']. *)
Definition lerp (k k' s x y : R) : R := x + (y - x) / (k' - k) * (s - k).

(** A road in two stages: the plain lane up to 50, and from 50 on a lane
    that carries the two height offsets. *)
Definition later_section : LaneSection.t :=
  LaneSection.mk 50 (fun _ _ => Some (left_lane two_offsets)).

Definition staged_sections : StdMap.t LaneSection.ptr :=
  [(0, Some (one_lane_section (left_lane []))); (50, Some later_section)].

(** The straight road turned to run along the y-axis: heading [PI / 2]. *)
Definition northbound_road (phi : R) : Road.t :=
  Road.mk "2"%string (line_ref_line 0 0 (PI / 2)) (const_spline 0 phi)
          no_crossfall plain_sections.

(** * Properties *)

(** ** Comparisons *)

Lemma Rltb_true x y : Rltb x y = true <-> x < y.
Proof. unfold Rltb; destruct (Rlt_dec x y); split; intros; congruence || lra. Qed.

Lemma Rltb_false x y : Rltb x y = false <-> y <= x.
Proof. unfold Rltb; destruct (Rlt_dec x y); split; intros; congruence || lra. Qed.

Lemma Reqb_true x y : Reqb x y = true <-> x = y.
Proof. unfold Reqb; destruct (Req_dec_T x y); split; intros; congruence. Qed.

Lemma Reqb_false x y : Reqb x y = false <-> x <> y.
Proof. unfold Reqb; destruct (Req_dec_T x y); split; intros; congruence. Qed.

Lemma Reqb_refl x : Reqb x x = true.
Proof. now apply Reqb_true. Qed.

(** ** Ordered maps: where [upper_bound] and the step back land *)

Section OrderedMaps.

Context {V : Type}.
Implicit Types (m : StdMap.t V) (e : R * V) (s : R).

Lemma ordered_tail k v m : StdMap.ordered ((k, v) :: m) -> StdMap.ordered m.
Proof. unfold StdMap.ordered; simpl; intros H; now inversion H. Qed.

Lemma ordered_head_lt k v m e :
  StdMap.ordered ((k, v) :: m) -> In e m -> k < fst e.
Proof.
  unfold StdMap.ordered; simpl; intros H Hin.
  inversion H as [|? ? _ Hall]; subst.
  rewrite Forall_forall in Hall.
  apply Hall, in_map, Hin.
Qed.

Lemma upper_bound_le_size m s : (StdMap.upper_bound m s <= StdMap.size m)%nat.
Proof.
  unfold StdMap.size.
  induction m as [|[k v] m IH]; simpl; [lia|].
  destruct (Rltb s k); lia.
Qed.

Lemma upper_bound_below m s i e :
  nth_error m i = Some e -> (i < StdMap.upper_bound m s)%nat -> fst e <= s.
Proof.
  revert i; induction m as [|[k v] m IH]; intros i Hn Hi; simpl in *; [lia|].
  destruct (Rltb s k) eqn:Hk; [lia|].
  apply Rltb_false in Hk.
  destruct i as [|i]; simpl in Hn.
  - now inversion Hn.
  - apply (IH i); [assumption | lia].
Qed.

Lemma upper_bound_above m s i e :
  StdMap.ordered m ->
  nth_error m i = Some e -> (StdMap.upper_bound m s <= i)%nat -> s < fst e.
Proof.
  revert i; induction m as [|[k v] m IH]; intros i Hord Hn Hi.
  - now destruct i.
  - simpl in Hi. destruct (Rltb s k) eqn:Hk.
    + apply Rltb_true in Hk.
      destruct i as [|i]; simpl in Hn.
      * now inversion Hn.
      * apply nth_error_In in Hn.
        pose proof (ordered_head_lt _ _ _ _ Hord Hn). lra.
    + destruct i as [|i]; [lia|]. simpl in Hn.
      apply (IH i); [eapply ordered_tail; eassumption | assumption | lia].
Qed.

Lemma ordered_nth_lt m i j e e' :
  StdMap.ordered m ->
  nth_error m i = Some e -> nth_error m j = Some e' ->
  (i < j)%nat -> fst e < fst e'.
Proof.
  revert i j; induction m as [|[k v] m IH]; intros i j Hord Hi Hj Hlt.
  - now destruct i.
  - destruct j as [|j]; [lia|]. simpl in Hj.
    destruct i as [|i]; simpl in Hi.
    + inversion Hi; subst; simpl.
      eapply ordered_head_lt; [eassumption | eapply nth_error_In; eassumption].
    + apply (IH i j); [eapply ordered_tail; eassumption | assumption .. | lia].
Qed.

Lemma ordered_nth_le m i j e e' :
  StdMap.ordered m ->
  nth_error m i = Some e -> nth_error m j = Some e' ->
  (i <= j)%nat -> fst e <= fst e'.
Proof.
  intros Hord Hi Hj Hle.
  destruct (Nat.eq_dec i j) as [->|Hne].
  - rewrite Hi in Hj; inversion Hj; lra.
  - apply Rlt_le. eapply ordered_nth_lt; eauto. lia.
Qed.

Lemma selected_lt_size m s : m <> [] -> (selected m s < StdMap.size m)%nat.
Proof.
  intros Hm. unfold selected, StdMap.begin.
  pose proof (upper_bound_le_size m s) as Hle.
  assert (0 < StdMap.size m)%nat by (destruct m; simpl; [congruence | lia]).
  destruct (Nat.eqb_spec (StdMap.upper_bound m s) 0) as [->|Hne]; simpl; lia.
Qed.

(** On a non-empty map the lookup dereferences a valid position, and on an
    ordered one the entry found there is the entry the prose describes. *)
Lemma selected_deref m s :
  m <> [] -> exists e, StdMap.deref m (selected m s) = Some e.
Proof.
  intros Hm. pose proof (selected_lt_size m s Hm) as Hlt.
  unfold StdMap.deref, StdMap.size in *.
  destruct (nth_error m (selected m s)) eqn:E; [eauto|].
  apply nth_error_None in E. lia.
Qed.

Lemma selected_selects m s e :
  StdMap.ordered m ->
  StdMap.deref m (selected m s) = Some e -> selects m s e.
Proof.
  intros Hord He. unfold StdMap.deref in He.
  split; [eapply nth_error_In; eassumption|].
  unfold selected, StdMap.begin in He.
  destruct (Nat.eqb_spec (StdMap.upper_bound m s) 0) as [Hz|Hnz]; simpl in He.
  - right. intros e' Hin.
    apply In_nth_error in Hin as [j Hj]. split.
    + eapply upper_bound_above; eauto. lia.
    + rewrite Hz in He. eapply ordered_nth_le; eauto. lia.
  - left. split.
    + eapply upper_bound_below; eauto. lia.
    + intros e' Hin Hle.
      apply In_nth_error in Hin as [j Hj].
      destruct (le_lt_dec (StdMap.upper_bound m s) j) as [Hge|Hlt].
      * pose proof (upper_bound_above m s j e' Hord Hj Hge). lra.
      * eapply ordered_nth_le; eauto. lia.
Qed.

(** The entry a lookup selects is unique. *)
Lemma selects_unique m s e e' :
  StdMap.ordered m -> selects m s e -> selects m s e' -> e = e'.
Proof.
  intros Hord [Hin H] [Hin' H'].
  assert (Hk : fst e = fst e').
  { destruct H as [[Hle Hmax]|Hmin], H' as [[Hle' Hmax']|Hmin'].
    - apply Rle_antisym; auto.
    - destruct (Hmin' e Hin). lra.
    - destruct (Hmin e' Hin'). lra.
    - destruct (Hmin e' Hin'), (Hmin' e Hin). lra. }
  apply In_nth_error in Hin as [i Hi], Hin' as [j Hj].
  destruct (lt_eq_lt_dec i j) as [[Hlt| ->]|Hlt].
  - pose proof (ordered_nth_lt m i j e e' Hord Hi Hj Hlt). lra.
  - congruence.
  - pose proof (ordered_nth_lt m j i e' e Hord Hj Hi Hlt). lra.
Qed.

(** [std::next(it)] of a valid position is the successor entry when it is
    not [end()], and there is no successor entry when it is. *)
Lemma next_successor m i e e1 :
  StdMap.ordered m ->
  StdMap.deref m i = Some e -> StdMap.deref m (StdMap.next i) = Some e1 ->
  successor m e e1.
Proof.
  unfold StdMap.deref, StdMap.next. intros Hord Hi Hn.
  split; [eapply nth_error_In; eassumption|]. split.
  - eapply ordered_nth_lt; eauto.
  - intros e' Hin Hlt. apply In_nth_error in Hin as [j Hj].
    destruct (le_lt_dec j i) as [Hle|Hgt].
    + pose proof (ordered_nth_le m j i e' e Hord Hj Hi Hle). lra.
    + eapply ordered_nth_le; eauto.
Qed.

Lemma next_end_no_successor m i e e1 :
  StdMap.ordered m ->
  StdMap.deref m i = Some e -> StdMap.deref m (StdMap.next i) = None ->
  ~ successor m e e1.
Proof.
  unfold StdMap.deref, StdMap.next. intros Hord Hi Hn [Hin [Hlt _]].
  apply In_nth_error in Hin as [j Hj].
  apply nth_error_None in Hn.
  assert (j < List.length m)%nat by (apply nth_error_Some; congruence).
  assert (Hle : (j <= i)%nat) by lia.
  pose proof (ordered_nth_le m j i e1 e Hord Hj Hi Hle). lra.
Qed.

(** An entry that meets the description of the lookup is the entry found. *)
Lemma selects_deref m s e :
  StdMap.ordered m -> selects m s e ->
  StdMap.deref m (selected m s) = Some e.
Proof.
  intros Hord Hsel.
  assert (Hm : m <> []) by (destruct Hsel as [Hin _]; now destruct m).
  destruct (selected_deref m s Hm) as [e' He'].
  rewrite He'. f_equal.
  eapply selects_unique; eauto using selected_selects.
Qed.

End OrderedMaps.

(** ** Lane sections *)

Lemma size_pos_nonempty {V} (m : StdMap.t V) :
  (0 <? StdMap.size m)%nat = true <-> m <> [].
Proof.
  destruct m; simpl; split; intros H; try congruence; try reflexivity.
  now elim H.
Qed.

Lemma size_zero_empty {V} (m : StdMap.t V) :
  (0 <? StdMap.size m)%nat = false <-> m = [].
Proof.
  destruct m; simpl; split; intros H; try reflexivity; try congruence.
  discriminate H.
Qed.

Lemma get_lanesection_selected (r : Road.t) (s : R) :
  Road.s_to_lanesection r <> [] ->
  exists k p,
    StdMap.deref (Road.s_to_lanesection r)
                 (selected (Road.s_to_lanesection r) s) = Some (k, p)
    /\ Road.get_lanesection r s = p.
Proof.
  intros Hm. destruct (selected_deref _ s Hm) as [[k p] He].
  exists k, p. split; [assumption|].
  unfold Road.get_lanesection.
  apply size_pos_nonempty in Hm. rewrite Hm.
  fold (selected (Road.s_to_lanesection r) s). now rewrite He.
Qed.

(** Null is returned for the empty map and for a null pointer stored in the
    entry the lookup ends on, and in no other case. *)
Lemma get_lanesection_null (r : Road.t) (s : R) :
  Road.get_lanesection r s = None <->
  Road.s_to_lanesection r = [] \/
  exists k, StdMap.deref (Road.s_to_lanesection r)
                         (selected (Road.s_to_lanesection r) s)
            = Some (k, None).
Proof.
  split.
  - intros H.
    destruct (Road.s_to_lanesection r) as [|e m] eqn:E; [now left|].
    right. rewrite <- E.
    destruct (get_lanesection_selected r s) as (k & p & He & Hs);
      [rewrite E; discriminate|].
    exists k. rewrite He, <- Hs, H. reflexivity.
  - intros [H|[k He]].
    + unfold Road.get_lanesection. now rewrite H.
    + assert (Hm : Road.s_to_lanesection r <> [])
        by (intros E; rewrite E in He; discriminate He).
      destruct (get_lanesection_selected r s Hm) as (k' & p & He' & Hs).
      rewrite He in He'. injection He' as _ Hp.
      rewrite Hs. symmetry. exact Hp.
Qed.

Lemma get_lanesection_null_selects (r : Road.t) (s : R) :
  StdMap.ordered (Road.s_to_lanesection r) ->
  (Road.get_lanesection r s = None <->
   Road.s_to_lanesection r = [] \/
   exists k, selects (Road.s_to_lanesection r) s (k, None)).
Proof.
  intros Hord. rewrite get_lanesection_null.
  split; (intros [H|[k H]]; [now left | right; exists k]).
  - now apply selected_selects.
  - now apply selects_deref.
Qed.

Lemma diagnostic_iff_null (r : Road.t) (s t : R) :
  fst (Road.get_surface_pt r s t) <> [] <-> Road.get_lanesection r s = None.
Proof.
  unfold Road.get_surface_pt.
  destruct (Road.get_lanesection r s) as [ls|]; simpl.
  - destruct (LaneSection.get_lane ls s t); simpl; split; congruence.
  - split; congruence.
Qed.

Lemma get_lanesection_null_nonnull_entries (r : Road.t) (s : R) :
  (forall e, In e (Road.s_to_lanesection r) -> snd e <> None) ->
  (Road.get_lanesection r s = None <-> Road.s_to_lanesection r = []).
Proof.
  intros Hnn. rewrite get_lanesection_null.
  split; [|now left].
  intros [H|[k He]]; [exact H|].
  exfalso. apply nth_error_In in He. exact (Hnn _ He eq_refl).
Qed.

(** C10, as the code has it.  On a road with at least one lane section
    [get_lanesection] returns the pointer stored in an entry of the map: the
    entry with the greatest start not exceeding [s] when there is one, and
    the entry with the lowest start when [s] is below every start.  It
    returns null exactly when the road has no lane section or that entry
    stores a null pointer, and [get_surface_pt] prints its diagnostic exactly
    in these two cases, whatever [s] is; when no stored pointer is null,
    exactly when the road has no lane section. *)
Theorem get_lanesection_saturates (r : Road.t) (s : R) :
  (StdMap.ordered (Road.s_to_lanesection r) ->
   Road.s_to_lanesection r <> [] ->
   exists k p,
     Road.get_lanesection r s = p /\
     In (k, p) (Road.s_to_lanesection r) /\
     ((exists e, In e (Road.s_to_lanesection r) /\ fst e <= s) ->
      k <= s /\
      forall e, In e (Road.s_to_lanesection r) -> fst e <= s -> fst e <= k) /\
     ((forall e, In e (Road.s_to_lanesection r) -> s < fst e) ->
      forall e, In e (Road.s_to_lanesection r) -> k <= fst e)) /\
  (StdMap.ordered (Road.s_to_lanesection r) ->
   (Road.get_lanesection r s = None <->
    Road.s_to_lanesection r = [] \/
    exists k, selects (Road.s_to_lanesection r) s (k, None)) /\
   (forall t,
      fst (Road.get_surface_pt r s t) <> [] <->
      Road.s_to_lanesection r = [] \/
      exists k, selects (Road.s_to_lanesection r) s (k, None))) /\
  ((forall e, In e (Road.s_to_lanesection r) -> snd e <> None) ->
   (Road.get_lanesection r s = None <-> Road.s_to_lanesection r = []) /\
   (forall t,
      fst (Road.get_surface_pt r s t) <> [] <-> Road.s_to_lanesection r = [])).
Proof.
  split; [|split].
  - intros Hord Hm.
    destruct (get_lanesection_selected r s Hm) as (k & p & He & Hs).
    apply selected_selects in He; [|assumption].
    destruct He as [Hin Hcases].
    exists k, p. split; [exact Hs|]. split; [exact Hin|]. split.
    + intros (e & Hine & Hle).
      destruct Hcases as [Hgreatest|Hall]; [exact Hgreatest|].
      destruct (Hall e Hine). lra.
    + intros Hall e Hine.
      destruct Hcases as [[Hk _]|Hmin].
      * specialize (Hall _ Hin). simpl in *. lra.
      * now destruct (Hmin e Hine).
  - intros Hord. split.
    + now apply get_lanesection_null_selects.
    + intros t. rewrite diagnostic_iff_null.
      now apply get_lanesection_null_selects.
  - intros Hnn. split.
    + now apply get_lanesection_null_nonnull_entries.
    + intros t. rewrite diagnostic_iff_null.
      now apply get_lanesection_null_nonnull_entries.
Qed.

(** C9.  When [get_lanesection] yields no section, [get_surface_pt] returns
    the point [get_xyz s t 0] and prints exactly one diagnostic, which
    carries the road id and [s]. *)
Theorem get_surface_pt_without_section (r : Road.t) (s t : R) :
  Road.get_lanesection r s = None ->
  Road.get_surface_pt r s t =
    ([could_not_get_lane_section (Road.id r) s], Some (Road.get_xyz r s t 0)).
Proof. intros H. unfold Road.get_surface_pt. now rewrite H. Qed.

Lemma get_surface_pt_without_section_witness :
  Road.get_surface_pt (straight_road 0 []) 50 1.5 =
    ([could_not_get_lane_section "1"%string 50],
     Some (Road.get_xyz (straight_road 0 []) 50 1.5 0)).
Proof.
  apply (get_surface_pt_without_section (straight_road 0 []) 50 1.5).
  reflexivity.
Defined.

Lemma two_sections_ordered : StdMap.ordered two_sections.
Proof.
  unfold StdMap.ordered; simpl.
  repeat constructor. lra.
Qed.

Lemma get_lanesection_saturates_witness :
  StdMap.ordered two_sections /\ two_sections <> [] /\
  exists k p,
    Road.get_lanesection (straight_road 0 two_sections) 60 = p /\
    In (k, p) two_sections /\ k <= 60.
Proof.
  assert (Hne : two_sections <> []) by discriminate.
  split; [exact two_sections_ordered|]. split; [exact Hne|].
  destruct (get_lanesection_saturates (straight_road 0 two_sections) 60)
    as [H _].
  destruct (H two_sections_ordered Hne) as (k & p & Hs & Hin & Hle & _).
  exists k, p. split; [exact Hs|]. split; [exact Hin|].
  apply Hle. exists (0, Some (one_lane_section (left_lane []))).
  split; [now left | simpl; lra].
Defined.

(** C10 as stated fails on a road whose map is not empty but stores a null
    pointer in its second entry: at [s = 60] the lookup ends on that entry,
    [get_lanesection] returns null and [get_surface_pt] takes the
    missing-section fallback. *)
Lemma get_lanesection_null_entry_counterexample :
  StdMap.ordered dangling_sections /\
  Road.s_to_lanesection (straight_road 0 dangling_sections) <> [] /\
  Road.get_lanesection (straight_road 0 dangling_sections) 60 = None /\
  Road.get_surface_pt (straight_road 0 dangling_sections) 60 1.5 =
    ([could_not_get_lane_section "1"%string 60],
     Some (Road.get_xyz (straight_road 0 dangling_sections) 60 1.5 0)).
Proof.
  assert (H0 : Rltb 60 0 = false) by (apply Rltb_false; lra).
  assert (H50 : Rltb 60 50 = false) by (apply Rltb_false; lra).
  assert (Hnull : Road.get_lanesection (straight_road 0 dangling_sections) 60
                  = None).
  { unfold Road.get_lanesection, StdMap.begin, StdMap.deref; simpl.
    rewrite H0, H50. reflexivity. }
  split; [|split; [|split]].
  - unfold StdMap.ordered; simpl. repeat constructor. lra.
  - discriminate.
  - exact Hnull.
  - unfold Road.get_surface_pt. rewrite Hnull. reflexivity.
Qed.

(** ** Crossfall *)

Lemma get_crossfall_selected (c : Crossfall.t) (s : R) (on_left_side : bool) :
  Crossfall.s_start_to_poly c <> [] ->
  exists k p,
    StdMap.deref (Crossfall.s_start_to_poly c)
                 (selected (Crossfall.s_start_to_poly c) s) = Some (k, p)
    /\ Crossfall.get_crossfall c s on_left_side =
         if on_left_side && Side_eqb (side_of c k) Right then 0
         else if negb on_left_side && Side_eqb (side_of c k) Left then 0
         else Poly3.get p s.
Proof.
  intros Hm. destruct (selected_deref _ s Hm) as [[k p] He].
  exists k, p. split; [assumption|].
  unfold Crossfall.get_crossfall.
  apply size_pos_nonempty in Hm. rewrite Hm.
  fold (selected (Crossfall.s_start_to_poly c) s). now rewrite He.
Qed.

Lemma get_crossfall_left_only (s_start s : R) :
  Crossfall.get_crossfall (left_only_crossfall s_start) s false = 0 /\
  Crossfall.get_crossfall (left_only_crossfall s_start) s true = 0.05.
Proof.
  unfold Crossfall.get_crossfall, left_only_crossfall, const_spline,
    Crossfall.s_start_to_poly, StdMap.begin, StdMap.deref; simpl.
  destruct (Rltb s s_start); simpl; rewrite Reqb_refl; simpl;
    (split; [reflexivity | unfold Poly3.get; simpl; lra]).
Qed.

(** C4.  With at least one piece, [get_crossfall] looks at the piece with the
    greatest start not exceeding [s] (the first piece when every start
    exceeds [s]) and at the side tag stored under its start, [Both] when none
    is stored: it returns 0 when the tag is [Right] and the query is on the
    left, or [Left] and the query is on the right, and the piece's polynomial
    at [s] otherwise.  A single left-only piece of constant value 0.05 gives
    0 on the right and 0.05 on the left.  With no piece the result is 0. *)
Theorem get_crossfall_sides (c : Crossfall.t) (s : R) (on_left_side : bool) :
  (StdMap.ordered (Crossfall.s_start_to_poly c) ->
   Crossfall.s_start_to_poly c <> [] ->
   exists k p,
     selects (Crossfall.s_start_to_poly c) s (k, p) /\
     (side_of c k = Right /\ on_left_side = true \/
      side_of c k = Left /\ on_left_side = false ->
      Crossfall.get_crossfall c s on_left_side = 0) /\
     (~ (side_of c k = Right /\ on_left_side = true \/
         side_of c k = Left /\ on_left_side = false) ->
      Crossfall.get_crossfall c s on_left_side = Poly3.get p s)) /\
  (forall s_start,
     Crossfall.get_crossfall (left_only_crossfall s_start) s false = 0 /\
     Crossfall.get_crossfall (left_only_crossfall s_start) s true = 0.05) /\
  (Crossfall.s_start_to_poly c = [] ->
   Crossfall.get_crossfall c s on_left_side = 0).
Proof.
  split; [|split].
  - intros Hord Hm.
    destruct (get_crossfall_selected c s on_left_side Hm) as (k & p & He & Hv).
    exists k, p. split; [now apply selected_selects|].
    rewrite Hv. split.
    + intros [[-> ->]|[-> ->]]; reflexivity.
    + intros Hn.
      destruct on_left_side, (side_of c k); simpl; try reflexivity;
        exfalso; apply Hn; auto.
  - intros s_start. apply get_crossfall_left_only.
  - intros Hm. unfold Crossfall.get_crossfall. now rewrite Hm.
Qed.

Lemma get_crossfall_sides_witness :
  StdMap.ordered (Crossfall.s_start_to_poly (left_only_crossfall 0)) /\
  exists k p,
    selects (Crossfall.s_start_to_poly (left_only_crossfall 0)) 5 (k, p) /\
    side_of (left_only_crossfall 0) k = Left /\
    Crossfall.get_crossfall (left_only_crossfall 0) 5 false = 0.
Proof.
  assert (Hord : StdMap.ordered
                   (Crossfall.s_start_to_poly (left_only_crossfall 0)))
    by (unfold StdMap.ordered; simpl; repeat constructor).
  split; [exact Hord|].
  destruct (get_crossfall_sides (left_only_crossfall 0) 5 false) as [H _].
  destruct (H Hord) as (k & p & Hsel & Hzero & _); [discriminate|].
  assert (Hk : side_of (left_only_crossfall 0) k = Left).
  { destruct Hsel as [[Hin|[]] _]. inversion Hin; subst.
    unfold side_of; simpl. now rewrite Reqb_refl. }
  exists k, p. repeat split; try assumption; try apply Hsel.
  apply Hzero. right. split; [exact Hk | reflexivity].
Defined.

(** ** The transformation frame *)

Lemma vec3_eta (v : Vec3D) : mkVec3D (v0 v) (v1 v) (v2 v) = v.
Proof. now destruct v. Qed.

Section Frame.

Variables (r : Road.t) (s : R).

Lemma col0_frame :
  col0 (Road.get_transformation_matrix r s) =
  normalize (lateral_axis (RefLine.get_grad (Road.ref_line r) s)
                          (CubicSpline.get (Road.superelevation r) s)).
Proof. reflexivity. Qed.

Lemma col1_frame :
  col1 (Road.get_transformation_matrix r s) =
  normalize (crossProduct (RefLine.get_grad (Road.ref_line r) s)
                          (col0 (Road.get_transformation_matrix r s))).
Proof. reflexivity. Qed.

Lemma col2_frame :
  col2 (Road.get_transformation_matrix r s) =
  RefLine.get_xyz (Road.ref_line r) s.
Proof. exact (vec3_eta (RefLine.get_xyz (Road.ref_line r) s)). Qed.

Lemma get_xyz_frame (t h : R) :
  Road.get_xyz r s t h =
  vadd (vadd (vscale t (col0 (Road.get_transformation_matrix r s)))
             (vscale h (col1 (Road.get_transformation_matrix r s))))
       (col2 (Road.get_transformation_matrix r s)).
Proof.
  unfold Road.get_xyz.
  unfold MatVecMultiplication, vadd, vscale, col0, col1, col2, dot.
  cbn [v0 v1 v2]. f_equal; ring.
Qed.

End Frame.

(** C1.  The columns of [get_transformation_matrix s] are the normalized
    lateral axis [e_t], the normalized cross product [e_h] of the gradient
    with [e_t], and the point [p0] of the reference line; [get_xyz s t h] is
    that matrix applied to [(t, h, 1)], which is [t e_t + h e_h + p0]. *)
Theorem get_transformation_matrix_columns (r : Road.t) (s t h : R) :
  let g := RefLine.get_grad (Road.ref_line r) s in
  let phi := CubicSpline.get (Road.superelevation r) s in
  let e_t := normalize (mkVec3D (- v1 g) (v0 g) (tan phi * Rabs (v1 g))) in
  let e_h := normalize (crossProduct g e_t) in
  let p0 := RefLine.get_xyz (Road.ref_line r) s in
  let M := Road.get_transformation_matrix r s in
  col0 M = e_t /\ col1 M = e_h /\ col2 M = p0 /\
  Road.get_xyz r s t h = MatVecMultiplication M (mkVec3D t h 1) /\
  Road.get_xyz r s t h = vadd (vadd (vscale t e_t) (vscale h e_h)) p0.
Proof.
  intros g phi e_t e_h p0 M.
  assert (Ht : col0 M = e_t) by apply col0_frame.
  assert (Hh : col1 M = e_h) by (unfold e_h; rewrite <- Ht; apply col1_frame).
  assert (Hp : col2 M = p0) by apply col2_frame.
  split; [exact Ht|]. split; [exact Hh|]. split; [exact Hp|].
  split; [reflexivity|].
  rewrite <- Ht, <- Hh, <- Hp. apply get_xyz_frame.
Qed.

Lemma dot_self_nonneg (v : Vec3D) : 0 <= dot v v.
Proof. unfold dot. nra. Qed.

Lemma norm_pos (v : Vec3D) : 0 < dot v v -> 0 < norm v.
Proof. intros H. unfold norm. now apply sqrt_lt_R0. Qed.

Lemma norm_sqr (v : Vec3D) : norm v * norm v = dot v v.
Proof. unfold norm. apply sqrt_sqrt, dot_self_nonneg. Qed.

Lemma dot_normalize_r (x y : Vec3D) : dot x (normalize y) = dot x y / norm y.
Proof. unfold dot, normalize; simpl. unfold Rdiv. ring. Qed.

Lemma dot_normalize_l (x y : Vec3D) : dot (normalize x) y = dot x y / norm x.
Proof. unfold dot, normalize; simpl. unfold Rdiv. ring. Qed.

(** A vector that is not null is normalized to a unit vector. *)
Lemma norm_normalize (v : Vec3D) : 0 < dot v v -> norm (normalize v) = 1.
Proof.
  intros H. pose proof (norm_pos v H) as Hn.
  unfold norm at 1.
  rewrite dot_normalize_r, dot_normalize_l, <- norm_sqr.
  replace (norm v * norm v / norm v / norm v) with 1 by (field; lra).
  apply sqrt_1.
Qed.

Lemma dot_cross_self (g x : Vec3D) : dot x (crossProduct g x) = 0.
Proof. unfold dot, crossProduct; simpl. ring. Qed.

Lemma det3_cross (g x : Vec3D) :
  det3 x (crossProduct g x) g = dot (crossProduct g x) (crossProduct g x).
Proof. unfold det3, dot, crossProduct; simpl. ring. Qed.

Lemma det3_normalize_mid (x w g : Vec3D) :
  det3 x (normalize w) g = det3 x w g / norm w.
Proof. unfold det3, dot, crossProduct, normalize; simpl. unfold Rdiv. ring. Qed.

Lemma lateral_axis_not_null (g : Vec3D) (phi : R) :
  v0 g <> 0 \/ v1 g <> 0 -> 0 < dot (lateral_axis g phi) (lateral_axis g phi).
Proof.
  intros H. unfold dot, lateral_axis; simpl.
  assert (0 < v0 g * v0 g + v1 g * v1 g) by (destruct H; nra).
  nra.
Qed.

(** The gradient is never parallel to the lateral axis: the third component
    of their cross product is [g_x^2 + g_y^2] over a positive length. *)
Lemma cross_lateral_not_null (g : Vec3D) (phi : R) :
  v0 g <> 0 \/ v1 g <> 0 ->
  let w := crossProduct g (normalize (lateral_axis g phi)) in
  0 < dot w w.
Proof.
  intros H w.
  pose proof (norm_pos _ (lateral_axis_not_null g phi H)) as Hn.
  assert (Hz : 0 < v2 w).
  { unfold w, crossProduct, normalize, lateral_axis; simpl.
    set (n := norm _) in *.
    replace (v0 g * (v0 g / n) - v1 g * (- v1 g / n))
      with ((v0 g * v0 g + v1 g * v1 g) / n) by (field; lra).
    apply Rdiv_lt_0_compat; [destruct H; nra | assumption]. }
  unfold dot. nra.
Qed.

(** C5.  Where the gradient is a unit vector with a non-zero planar part,
    the two axes of the frame are orthogonal unit vectors and
    [(e_t, e_h, g)] has a positive determinant.  Over the reals the
    equalities are exact, hence within every tolerance. *)
Theorem transformation_frame_orthonormal (r : Road.t) (s : R) :
  let g := RefLine.get_grad (Road.ref_line r) s in
  let e_t := col0 (Road.get_transformation_matrix r s) in
  let e_h := col1 (Road.get_transformation_matrix r s) in
  norm g = 1 ->
  v0 g <> 0 \/ v1 g <> 0 ->
  dot e_t e_h = 0 /\ norm e_t = 1 /\ norm e_h = 1 /\ 0 < det3 e_t e_h g.
Proof.
  intros g e_t e_h _ Hplanar.
  set (phi := CubicSpline.get (Road.superelevation r) s).
  assert (Ht : e_t = normalize (lateral_axis g phi)) by apply col0_frame.
  assert (Hh : e_h = normalize (crossProduct g e_t)) by apply col1_frame.
  pose proof (lateral_axis_not_null g phi Hplanar) as Hv.
  pose proof (cross_lateral_not_null g phi Hplanar) as Hw.
  cbv zeta in Hw. rewrite <- Ht in Hw.
  pose proof (norm_pos _ Hw) as Hnw.
  repeat split.
  - rewrite Hh, dot_normalize_r, dot_cross_self. unfold Rdiv. ring.
  - rewrite Ht. now apply norm_normalize.
  - rewrite Hh. now apply norm_normalize.
  - rewrite Hh, det3_normalize_mid, det3_cross, <- norm_sqr.
    replace (norm (crossProduct g e_t) * norm (crossProduct g e_t)
             / norm (crossProduct g e_t))
      with (norm (crossProduct g e_t)) by (field; lra).
    assumption.
Qed.

(** ** The straight road *)

Lemma const_spline_get (s_start v s : R) :
  CubicSpline.get (const_spline s_start v) s = v.
Proof.
  unfold CubicSpline.get, const_spline, StdMap.begin, StdMap.deref; simpl.
  destruct (Rltb s s_start); simpl; unfold Poly3.get; simpl; ring.
Qed.

Lemma straight_road_grad (phi : R) secs (s : R) :
  RefLine.get_grad (Road.ref_line (straight_road phi secs)) s = mkVec3D 1 0 0.
Proof. simpl. now rewrite cos_0, sin_0. Qed.

Lemma straight_road_xyz (phi : R) secs (s : R) :
  RefLine.get_xyz (Road.ref_line (straight_road phi secs)) s = mkVec3D s 0 0.
Proof. simpl. rewrite cos_0, sin_0. f_equal; ring. Qed.

Lemma norm_unit_x : norm (mkVec3D 1 0 0) = 1.
Proof.
  unfold norm, dot; simpl.
  replace (1 * 1 + 0 * 0 + 0 * 0) with 1 by ring. apply sqrt_1.
Qed.

Lemma transformation_frame_orthonormal_witness :
  norm (RefLine.get_grad
          (Road.ref_line (straight_road 0.1 plain_sections)) 50) = 1 /\
  dot (col0 (Road.get_transformation_matrix
               (straight_road 0.1 plain_sections) 50))
      (col1 (Road.get_transformation_matrix
               (straight_road 0.1 plain_sections) 50)) = 0 /\
  norm (col0 (Road.get_transformation_matrix
                (straight_road 0.1 plain_sections) 50)) = 1 /\
  norm (col1 (Road.get_transformation_matrix
                (straight_road 0.1 plain_sections) 50)) = 1 /\
  0 < det3 (col0 (Road.get_transformation_matrix
                    (straight_road 0.1 plain_sections) 50))
           (col1 (Road.get_transformation_matrix
                    (straight_road 0.1 plain_sections) 50))
           (RefLine.get_grad
              (Road.ref_line (straight_road 0.1 plain_sections)) 50).
Proof.
  assert (Hg : RefLine.get_grad
                 (Road.ref_line (straight_road 0.1 plain_sections)) 50
               = mkVec3D 1 0 0)
    by apply straight_road_grad.
  assert (Hn : norm (RefLine.get_grad
                       (Road.ref_line (straight_road 0.1 plain_sections)) 50)
               = 1)
    by (rewrite Hg; apply norm_unit_x).
  split; [exact Hn|].
  apply (transformation_frame_orthonormal
           (straight_road 0.1 plain_sections) 50 Hn).
  left. rewrite Hg. simpl. lra.
Defined.

(** C7.  Where the planar tangent points along the x-axis ([g_y = 0],
    [g_x <> 0]) the lift term [tan(phi) |g_y|] is 0, the lateral axis has no
    vertical component, and [get_xyz s t 0] stays at the height of the
    reference line for every [t], whatever the superelevation is. *)
Theorem no_lift_along_x_axis (r : Road.t) (s : R) :
  let g := RefLine.get_grad (Road.ref_line r) s in
  let phi := CubicSpline.get (Road.superelevation r) s in
  v1 g = 0 -> v0 g <> 0 ->
  tan phi * Rabs (v1 g) = 0 /\
  v2 (col0 (Road.get_transformation_matrix r s)) = 0 /\
  forall t,
    v2 (Road.get_xyz r s t 0) = v2 (RefLine.get_xyz (Road.ref_line r) s).
Proof.
  intros g phi Hy _.
  assert (Hlift : tan phi * Rabs (v1 g) = 0)
    by (rewrite Hy, Rabs_R0; ring).
  assert (Hz : v2 (col0 (Road.get_transformation_matrix r s)) = 0).
  { rewrite col0_frame. fold g phi. unfold normalize, lateral_axis; simpl.
    rewrite Hlift. unfold Rdiv. ring. }
  split; [exact Hlift|]. split; [exact Hz|].
  intros t. rewrite get_xyz_frame, col2_frame.
  unfold vadd, vscale; cbn [v0 v1 v2]. rewrite Hz. ring.
Qed.

Lemma no_lift_along_x_axis_witness :
  v2 (col0 (Road.get_transformation_matrix
              (straight_road 0.1 plain_sections) 50)) = 0 /\
  v2 (Road.get_xyz (straight_road 0.1 plain_sections) 50 1.5 0) =
  v2 (RefLine.get_xyz (Road.ref_line (straight_road 0.1 plain_sections)) 50).
Proof.
  assert (Hg : RefLine.get_grad
                 (Road.ref_line (straight_road 0.1 plain_sections)) 50
               = mkVec3D 1 0 0)
    by apply straight_road_grad.
  destruct (no_lift_along_x_axis (straight_road 0.1 plain_sections) 50)
    as (_ & Hz & Hxyz).
  - rewrite Hg. reflexivity.
  - rewrite Hg. simpl. lra.
  - split; [exact Hz | apply Hxyz].
Defined.

(** Where the gradient is the unit vector of the x-axis the lateral axis is
    the unit vector of the y-axis and the normal the unit vector of the
    z-axis, whatever the superelevation is. *)
Lemma frame_along_x (r : Road.t) (s : R) :
  RefLine.get_grad (Road.ref_line r) s = mkVec3D 1 0 0 ->
  col0 (Road.get_transformation_matrix r s) = mkVec3D 0 1 0 /\
  col1 (Road.get_transformation_matrix r s) = mkVec3D 0 0 1.
Proof.
  intros Hg.
  assert (Hone : forall x y z, x * x + y * y + z * z = 1 ->
                   norm (mkVec3D x y z) = 1).
  { intros x y z H. unfold norm, dot; cbn [v0 v1 v2]. rewrite H. apply sqrt_1. }
  assert (Ht : col0 (Road.get_transformation_matrix r s) = mkVec3D 0 1 0).
  { rewrite col0_frame, Hg. unfold normalize, lateral_axis; cbn [v0 v1 v2].
    rewrite Rabs_R0, Hone by ring. f_equal; field. }
  split; [exact Ht|].
  rewrite col1_frame, Ht, Hg. unfold normalize, crossProduct; cbn [v0 v1 v2].
  rewrite Hone by ring. f_equal; field.
Qed.

Lemma get_xyz_along_x (r : Road.t) (s t h : R) (p0 : Vec3D) :
  RefLine.get_grad (Road.ref_line r) s = mkVec3D 1 0 0 ->
  RefLine.get_xyz (Road.ref_line r) s = p0 ->
  Road.get_xyz r s t h = mkVec3D (v0 p0) (v1 p0 + t) (v2 p0 + h).
Proof.
  intros Hg Hp.
  destruct (frame_along_x r s Hg) as [Ht Hh].
  rewrite get_xyz_frame, col2_frame, Hp, Ht, Hh.
  unfold vadd, vscale; cbn [v0 v1 v2]. f_equal; ring.
Qed.

(** C6, as the code has it.  On the straight road with superelevation 0.1
    the gradient at 50 is [(1, 0, 0)], so the lift term vanishes:
    [get_xyz 50 1.5 0] is [(50, 1.5, 0)] and its z-coordinate is 0. *)
Theorem straight_superelevated_xyz (r : Road.t) :
  RefLine.get_grad (Road.ref_line r) 50 = mkVec3D 1 0 0 ->
  RefLine.get_xyz (Road.ref_line r) 50 = mkVec3D 50 0 0 ->
  CubicSpline.get (Road.superelevation r) 50 = 0.1 ->
  Road.get_xyz r 50 1.5 0 = mkVec3D 50 1.5 0 /\
  v2 (Road.get_xyz r 50 1.5 0) = 0.
Proof.
  intros Hg Hp _.
  rewrite (get_xyz_along_x r 50 1.5 0 _ Hg Hp); cbn [v0 v1 v2].
  split; [f_equal; ring | ring].
Qed.

Lemma straight_superelevated_xyz_witness :
  Road.get_xyz (straight_road 0.1 plain_sections) 50 1.5 0 = mkVec3D 50 1.5 0 /\
  v2 (Road.get_xyz (straight_road 0.1 plain_sections) 50 1.5 0) = 0.
Proof.
  apply (straight_superelevated_xyz (straight_road 0.1 plain_sections)).
  - apply straight_road_grad.
  - apply straight_road_xyz.
  - apply const_spline_get.
Defined.

Lemma sin_tenth_lower : 0.09 < sin 0.1.
Proof.
  assert (H0 : 0 <= 0.1) by lra.
  assert (H1 : 0.1 <= PI) by (pose proof PI2_1; lra).
  destruct (sin_bound 0.1 0 H0 H1) as [Hlb _].
  unfold sin_approx, sin_term in Hlb. simpl in Hlb. lra.
Qed.

(** C6 as stated fails on the straight road: the z-coordinate is 0, more
    than 0.13 away from [1.5 sin(0.1)] and from 0.1496. *)
Lemma straight_superelevated_z_counterexample :
  RefLine.get_grad (Road.ref_line (straight_road 0.1 plain_sections)) 50
    = mkVec3D 1 0 0 /\
  RefLine.get_xyz (Road.ref_line (straight_road 0.1 plain_sections)) 50
    = mkVec3D 50 0 0 /\
  CubicSpline.get (Road.superelevation (straight_road 0.1 plain_sections)) 50
    = 0.1 /\
  v2 (Road.get_xyz (straight_road 0.1 plain_sections) 50 1.5 0) = 0 /\
  ~ Rabs (v2 (Road.get_xyz (straight_road 0.1 plain_sections) 50 1.5 0)
          - 1.5 * sin 0.1) <= 0.13 /\
  ~ Rabs (v2 (Road.get_xyz (straight_road 0.1 plain_sections) 50 1.5 0)
          - 0.1496) <= 0.13.
Proof.
  assert (Hz : v2 (Road.get_xyz (straight_road 0.1 plain_sections) 50 1.5 0) = 0).
  { rewrite (get_xyz_along_x _ 50 1.5 0 (mkVec3D 50 0 0));
      [cbn [v2]; ring | apply straight_road_grad | apply straight_road_xyz]. }
  split; [apply straight_road_grad|].
  split; [apply straight_road_xyz|].
  split; [apply const_spline_get|].
  split; [exact Hz|].
  rewrite Hz. pose proof sin_tenth_lower.
  split; (rewrite Rabs_left; lra).
Qed.

(** ** The surface point *)

Lemma get_surface_pt_resolved (r : Road.t) (s t : R) ls lane :
  Road.get_lanesection r s = Some ls ->
  LaneSection.get_lane ls s t = Some lane ->
  Road.get_surface_pt r s t =
    ([], Some (Road.get_xyz r s t
                 (Road.offset_h_t lane s t (Road.slope_h_t r lane s t)))).
Proof. intros Hls Hlane. unfold Road.get_surface_pt. now rewrite Hls, Hlane. Qed.

Lemma offset_h_t_empty (lane : Lane.t) (s t h : R) :
  Lane.s_to_height_offset lane = [] -> Road.offset_h_t lane s t h = h.
Proof. intros H. unfold Road.offset_h_t. now rewrite H. Qed.

(** C2.  When a lane section and a lane are resolved, the slope height that
    [get_surface_pt] hands to the height-offset step and then to [get_xyz] is
    [- tan(alpha) |t|] on a lane that is not level, and
    [- tan(alpha) |t_in| + tan(phi) (t - t_in)] on a level lane: the crossfall
    slope up to the inner border, the superelevation slope from there to
    [t].  Without height offsets that slope height is the height passed to
    [get_xyz]. *)
Theorem get_surface_pt_slope_height (r : Road.t) (s t : R) ls lane :
  Road.get_lanesection r s = Some ls ->
  LaneSection.get_lane ls s t = Some lane ->
  let t_in := CubicSpline.get (Lane.inner_border lane) s in
  let alpha :=
    Crossfall.get_crossfall (Road.crossfall r) s (Lane.id lane >? 0)%Z in
  let phi := CubicSpline.get (Road.superelevation r) s in
  (Lane.level lane = false ->
   Road.get_surface_pt r s t =
     ([], Some (Road.get_xyz r s t
                  (Road.offset_h_t lane s t (- tan alpha * Rabs t))))) /\
  (Lane.level lane = true ->
   Road.get_surface_pt r s t =
     ([], Some (Road.get_xyz r s t
                  (Road.offset_h_t lane s t
                     (- tan alpha * Rabs t_in + tan phi * (t - t_in)))))) /\
  (Lane.s_to_height_offset lane = [] ->
   forall h_t, Road.offset_h_t lane s t h_t = h_t).
Proof.
  intros Hls Hlane t_in alpha phi.
  rewrite (get_surface_pt_resolved r s t ls lane Hls Hlane).
  unfold Road.slope_h_t. fold t_in alpha phi.
  split; [|split].
  - intros ->. reflexivity.
  - intros ->. reflexivity.
  - intros H h_t. now apply offset_h_t_empty.
Qed.

Lemma plain_road_resolves (phi s t : R) offs :
  let lane := left_lane offs in
  let r := straight_road phi [(0, Some (one_lane_section lane))] in
  Road.get_lanesection r s = Some (one_lane_section lane) /\
  LaneSection.get_lane (one_lane_section lane) s t = Some lane.
Proof.
  intros lane r. split; [|reflexivity].
  unfold Road.get_lanesection, StdMap.begin, StdMap.deref; simpl.
  destruct (Rltb s 0); reflexivity.
Qed.

Lemma get_surface_pt_slope_height_witness :
  Lane.level (left_lane []) = false /\
  Road.get_surface_pt (straight_road 0.1 plain_sections) 50 1.5 =
    ([], Some (Road.get_xyz (straight_road 0.1 plain_sections) 50 1.5
                 (Road.offset_h_t (left_lane []) 50 1.5
                    (- tan (Crossfall.get_crossfall no_crossfall 50 true)
                     * Rabs 1.5)))).
Proof.
  split; [reflexivity|].
  destruct (plain_road_resolves 0.1 50 1.5 []) as [Hls Hlane].
  destruct (get_surface_pt_slope_height
              (straight_road 0.1 plain_sections) 50 1.5
              (one_lane_section (left_lane [])) (left_lane []) Hls Hlane)
    as [H _].
  apply H. reflexivity.
Defined.

(** The height-offset step on a non-empty ordered map, in the words of
    section 4.6. *)
Lemma offset_h_t_contribution (lane : Lane.t) (s t h : R) :
  StdMap.ordered (Lane.s_to_height_offset lane) ->
  Lane.s_to_height_offset lane <> [] ->
  let offs := Lane.s_to_height_offset lane in
  let p_t := p_t_of t (CubicSpline.get (Lane.inner_border lane) s)
                      (CubicSpline.get (Lane.outer_border lane) s) in
  exists s_entry cur,
    selects offs s (s_entry, cur) /\
    ((exists s_next nxt,
        successor offs (s_entry, cur) (s_next, nxt) /\
        Road.offset_h_t lane s t h =
          h + base_contribution p_t cur
          + successor_contribution p_t s s_entry s_next cur nxt) \/
     ((forall e1, ~ successor offs (s_entry, cur) e1) /\
      Road.offset_h_t lane s t h = h + base_contribution p_t cur)).
Proof.
  intros Hord Hm offs p_t.
  destruct (selected_deref offs s Hm) as [[s_entry cur] He].
  exists s_entry, cur. split; [now apply selected_selects|].
  assert (Hp : (if negb (Reqb (CubicSpline.get (Lane.outer_border lane) s)
                              (CubicSpline.get (Lane.inner_border lane) s))
                then (t - CubicSpline.get (Lane.inner_border lane) s)
                     / (CubicSpline.get (Lane.outer_border lane) s
                        - CubicSpline.get (Lane.inner_border lane) s)
                else 0) = p_t).
  { unfold p_t, p_t_of. now destruct (Reqb _ _). }
  unfold Road.offset_h_t.
  apply size_pos_nonempty in Hm. rewrite Hm.
  fold offs. fold (selected offs s). rewrite He. cbv zeta. rewrite Hp.
  destruct (StdMap.deref offs (StdMap.next (selected offs s)))
    as [[s_next nxt]|] eqn:Hn.
  - left. exists s_next, nxt. split.
    + eapply next_successor; eassumption.
    + unfold base_contribution, successor_contribution, Rdiv. ring.
  - right. split.
    + intros e1. eapply next_end_no_successor; eassumption.
    + reflexivity.
Qed.

(** C3.  On a lane with a non-empty height-offset map, [get_surface_pt] adds
    to the slope height the base contribution [p_t (outer - inner) + inner]
    of the entry with the greatest key not exceeding [s] (the first entry
    when every key exceeds [s]), with [p_t = (t - t_in) / (t_out - t_in)]
    when [t_out <> t_in] and 0 otherwise; and it adds the correction in [s]
    exactly when that entry has a successor entry. *)
Theorem get_surface_pt_height_offset (r : Road.t) (s t : R) ls lane :
  Road.get_lanesection r s = Some ls ->
  LaneSection.get_lane ls s t = Some lane ->
  StdMap.ordered (Lane.s_to_height_offset lane) ->
  Lane.s_to_height_offset lane <> [] ->
  let offs := Lane.s_to_height_offset lane in
  let t_in := CubicSpline.get (Lane.inner_border lane) s in
  let t_out := CubicSpline.get (Lane.outer_border lane) s in
  let p_t := if Reqb t_out t_in then 0 else (t - t_in) / (t_out - t_in) in
  let h_slope := Road.slope_h_t r lane s t in
  exists s_entry cur,
    selects offs s (s_entry, cur) /\
    ((exists s_next nxt,
        successor offs (s_entry, cur) (s_next, nxt) /\
        Road.get_surface_pt r s t =
          ([], Some (Road.get_xyz r s t
             (h_slope + (p_t * (outer cur - inner cur) + inner cur)
              + (p_t * ((outer nxt - outer cur) / (s_next - s_entry)
                        - (inner nxt - inner cur) / (s_next - s_entry))
                 * (s - s_entry)
                 + (inner nxt - inner cur) / (s_next - s_entry)
                   * (s - s_entry)))))) \/
     ((forall e1, ~ successor offs (s_entry, cur) e1) /\
      Road.get_surface_pt r s t =
        ([], Some (Road.get_xyz r s t
           (h_slope + (p_t * (outer cur - inner cur) + inner cur)))))).
Proof.
  intros Hls Hlane Hord Hm offs t_in t_out p_t h_slope.
  rewrite (get_surface_pt_resolved r s t ls lane Hls Hlane).
  fold h_slope.
  destruct (offset_h_t_contribution lane s t h_slope Hord Hm)
    as (s_entry & cur & Hsel & Hcases).
  exists s_entry, cur. split; [exact Hsel|].
  destruct Hcases as [(s_next & nxt & Hsucc & Hv)|[Hnone Hv]]; rewrite Hv.
  - left. exists s_next, nxt. split; [exact Hsucc | reflexivity].
  - right. split; [exact Hnone | reflexivity].
Qed.

Lemma two_offsets_ordered : StdMap.ordered two_offsets.
Proof. unfold StdMap.ordered; simpl. repeat constructor. lra. Qed.

Lemma get_surface_pt_height_offset_witness :
  StdMap.ordered (Lane.s_to_height_offset (left_lane two_offsets)) /\
  Lane.s_to_height_offset (left_lane two_offsets) <> [] /\
  exists s_entry cur s_next nxt,
    selects two_offsets 5 (s_entry, cur) /\
    successor two_offsets (s_entry, cur) (s_next, nxt).
Proof.
  assert (Hne : Lane.s_to_height_offset (left_lane two_offsets) <> [])
    by discriminate.
  split; [exact two_offsets_ordered|]. split; [exact Hne|].
  destruct (plain_road_resolves 0 5 3 two_offsets) as [Hls Hlane].
  destruct (get_surface_pt_height_offset _ 5 3 _ _ Hls Hlane
              two_offsets_ordered Hne)
    as (s_entry & cur & Hsel & Hcases).
  exists s_entry, cur.
  destruct Hcases as [(s_next & nxt & Hsucc & _)|[Hnone _]].
  - exists s_next, nxt. split; assumption.
  - exfalso.
    assert (Hk : s_entry = 0).
    { destruct Hsel as [Hin [[Hle _]|Hall]].
      - destruct Hin as [Hin|[Hin|[]]]; inversion Hin; subst;
          [reflexivity | simpl in Hle; lra].
      - destruct (Hall (0, mkHeightOffset 0 0.1)) as [Hlt _];
          [now left | simpl in Hlt; lra]. }
    apply (Hnone (10, mkHeightOffset 0.05 0.2)).
    split; [right; now left|]. subst s_entry. simpl. split; [lra|].
    intros e' [Hin|[Hin|[]]] Hlt; subst e'; simpl in *; lra.
Defined.

(** ** The interpolation scenario *)

(** With the two entries of the scenario, at [s = 5] and on the outer border
    of a lane of non-zero width, the height-offset step adds 0.15: 0.1 for
    the entry at 0 and 0.05 for half of the way to the entry at 10. *)
Lemma offset_h_t_two_offsets (lane : Lane.t) (t h : R) :
  Lane.s_to_height_offset lane = two_offsets ->
  t = CubicSpline.get (Lane.outer_border lane) 5 ->
  CubicSpline.get (Lane.outer_border lane) 5
    <> CubicSpline.get (Lane.inner_border lane) 5 ->
  Road.offset_h_t lane 5 t h = h + 0.15.
Proof.
  intros Hoffs Ht Hwidth.
  assert (H0 : Rltb 5 0 = false) by (apply Rltb_false; lra).
  assert (H10 : Rltb 5 10 = true) by (apply Rltb_true; lra).
  unfold Road.offset_h_t. rewrite Hoffs.
  unfold two_offsets, StdMap.begin, StdMap.deref, StdMap.next; simpl.
  rewrite H0, H10; simpl.
  apply Reqb_false in Hwidth. rewrite Hwidth; simpl.
  apply Reqb_false in Hwidth. subst t.
  set (w := CubicSpline.get (Lane.outer_border lane) 5
            - CubicSpline.get (Lane.inner_border lane) 5).
  replace (w / w) with 1 by (field; unfold w; lra).
  lra.
Qed.

(** C8, as the code has it.  With the two entries [{0: (0, 0.1)}] and
    [{10: (0.05, 0.2)}], at [s = 5] and [t = t_out] on a lane of non-zero
    width, [get_surface_pt] adds 0.15 to the slope height: the outer height
    interpolated half-way between 0.1 and 0.2. *)
Theorem height_offset_interpolation (r : Road.t) (t : R) ls lane :
  Road.get_lanesection r 5 = Some ls ->
  LaneSection.get_lane ls 5 t = Some lane ->
  Lane.s_to_height_offset lane = two_offsets ->
  t = CubicSpline.get (Lane.outer_border lane) 5 ->
  CubicSpline.get (Lane.outer_border lane) 5
    <> CubicSpline.get (Lane.inner_border lane) 5 ->
  p_t_of t (CubicSpline.get (Lane.inner_border lane) 5)
           (CubicSpline.get (Lane.outer_border lane) 5) = 1 /\
  (forall h_t, Road.offset_h_t lane 5 t h_t - h_t = 0.15) /\
  Road.get_surface_pt r 5 t =
    ([], Some (Road.get_xyz r 5 t (Road.slope_h_t r lane 5 t + 0.15))).
Proof.
  intros Hls Hlane Hoffs Ht Hwidth.
  split; [|split].
  - unfold p_t_of. pose proof Hwidth as Hw.
    apply Reqb_false in Hw. rewrite Hw. subst t. field. lra.
  - intros h_t. rewrite (offset_h_t_two_offsets lane t h_t Hoffs Ht Hwidth). ring.
  - rewrite (get_surface_pt_resolved r 5 t ls lane Hls Hlane).
    now rewrite (offset_h_t_two_offsets lane t _ Hoffs Ht Hwidth).
Qed.

Lemma left_lane_borders offs (s : R) :
  CubicSpline.get (Lane.inner_border (left_lane offs)) s = 0 /\
  CubicSpline.get (Lane.outer_border (left_lane offs)) s = 3.
Proof. split; apply const_spline_get. Qed.

Lemma height_offset_interpolation_witness :
  Road.get_surface_pt
    (straight_road 0 [(0, Some (one_lane_section (left_lane two_offsets)))]) 5 3 =
    ([], Some (Road.get_xyz
                 (straight_road 0 [(0, Some (one_lane_section (left_lane two_offsets)))])
                 5 3
                 (Road.slope_h_t
                    (straight_road 0
                       [(0, Some (one_lane_section (left_lane two_offsets)))])
                    (left_lane two_offsets) 5 3 + 0.15))).
Proof.
  destruct (plain_road_resolves 0 5 3 two_offsets) as [Hls Hlane].
  destruct (left_lane_borders two_offsets 5) as [Hin Hout].
  apply (height_offset_interpolation _ 3 _ _ Hls Hlane).
  - reflexivity.
  - now rewrite Hout.
  - rewrite Hin, Hout. lra.
Defined.

(** C8 as stated fails on the straight road with one left lane between 0 and
    3 carrying the two entries: at [s = 5], [t = t_out = 3] the parameter
    [p_t] is 1, the height added is 0.15 and not 0.175, and the surface point
    is [(5, 3, 0.15)]. *)
Lemma height_offset_interpolation_counterexample :
  Lane.s_to_height_offset (left_lane two_offsets) =
    [(0, mkHeightOffset 0 0.1); (10, mkHeightOffset 0.05 0.2)] /\
  CubicSpline.get (Lane.outer_border (left_lane two_offsets)) 5 = 3 /\
  p_t_of 3 (CubicSpline.get (Lane.inner_border (left_lane two_offsets)) 5)
           (CubicSpline.get (Lane.outer_border (left_lane two_offsets)) 5) = 1 /\
  (forall h_t,
     Road.offset_h_t (left_lane two_offsets) 5 3 h_t - h_t <> 0.175) /\
  Road.get_surface_pt
    (straight_road 0 [(0, Some (one_lane_section (left_lane two_offsets)))]) 5 3 =
    ([], Some (mkVec3D 5 3 0.15)).
Proof.
  destruct (left_lane_borders two_offsets 5) as [Hin Hout].
  assert (Hadd : forall h_t,
             Road.offset_h_t (left_lane two_offsets) 5 3 h_t = h_t + 0.15).
  { intros h_t. apply offset_h_t_two_offsets;
      [reflexivity | now rewrite Hout | rewrite Hin, Hout; lra]. }
  split; [reflexivity|]. split; [exact Hout|]. split; [|split].
  - rewrite Hin, Hout. unfold p_t_of.
    assert (Hw : Reqb 3 0 = false) by (apply Reqb_false; lra).
    rewrite Hw. field.
  - intros h_t. rewrite Hadd. lra.
  - destruct (plain_road_resolves 0 5 3 two_offsets) as [Hls Hlane].
    rewrite (get_surface_pt_resolved _ 5 3 _ _ Hls Hlane), Hadd.
    rewrite (get_xyz_along_x _ 5 3 _ (mkVec3D 5 0 0));
      [|apply straight_road_grad | apply straight_road_xyz].
    cbn [v0 v1 v2].
    assert (Hslope : Road.slope_h_t
                       (straight_road 0
                          [(0, Some (one_lane_section (left_lane two_offsets)))])
                       (left_lane two_offsets) 5 3 = 0).
    { unfold Road.slope_h_t; simpl.
      change (Crossfall.get_crossfall no_crossfall 5 (1 >? 0)%Z) with 0.
      rewrite tan_0. ring. }
    rewrite Hslope. do 2 f_equal. f_equal; ring.
Qed.

(** The first scenario of section 8: straight, no camber, one left lane
    between 0 and 3; the surface point at [(50, 1.5)] is [(50, 1.5, 0)] and
    nothing is printed. *)
Example straight_no_camber :
  Road.get_surface_pt (straight_road 0 plain_sections) 50 1.5 =
    ([], Some (mkVec3D 50 1.5 0)).
Proof.
  destruct (plain_road_resolves 0 50 1.5 []) as [Hls Hlane].
  unfold plain_sections.
  rewrite (get_surface_pt_resolved _ 50 1.5 _ _ Hls Hlane).
  rewrite offset_h_t_empty by reflexivity.
  rewrite (get_xyz_along_x _ 50 1.5 _ (mkVec3D 50 0 0));
    [|apply straight_road_grad | apply straight_road_xyz].
  cbn [v0 v1 v2]. unfold Road.slope_h_t; simpl.
  change (Crossfall.get_crossfall no_crossfall 50 (1 >? 0)%Z) with 0.
  rewrite tan_0. do 2 f_equal. f_equal; ring.
Qed.

(** * Further properties of the evaluator *)

(** ** Positions of a lookup *)

Section LookupPositions.

Context {V : Type}.
Implicit Types (m : StdMap.t V) (e : R * V) (s : R).

Lemma upper_bound_eq m s j :
  StdMap.ordered m -> (j <= StdMap.size m)%nat ->
  (forall i e, nth_error m i = Some e -> (i < j)%nat -> fst e <= s) ->
  (forall i e, nth_error m i = Some e -> (j <= i)%nat -> s < fst e) ->
  StdMap.upper_bound m s = j.
Proof.
  intros Hord Hj Hlow Hhigh.
  pose proof (upper_bound_le_size m s) as Hub.
  unfold StdMap.size in *.
  destruct (lt_eq_lt_dec (StdMap.upper_bound m s) j) as [[Hlt|Heq]|Hgt];
    [|exact Heq|].
  - destruct (nth_error m (StdMap.upper_bound m s)) as [e|] eqn:E.
    + pose proof (upper_bound_above m s _ e Hord E (Nat.le_refl _)).
      pose proof (Hlow _ e E Hlt). lra.
    + apply nth_error_None in E. lia.
  - destruct (nth_error m j) as [e|] eqn:E.
    + pose proof (upper_bound_below m s j e E Hgt).
      pose proof (Hhigh j e E (Nat.le_refl _)). lra.
    + apply nth_error_None in E. lia.
Qed.

(** Between the keys of two consecutive entries the lookup stays on the
    first of them. *)
Lemma selected_between m s l1 l2 e e1 :
  StdMap.ordered m -> m = l1 ++ e :: e1 :: l2 ->
  fst e <= s < fst e1 ->
  StdMap.deref m (selected m s) = Some e /\
  StdMap.deref m (StdMap.next (selected m s)) = Some e1.
Proof.
  intros Hord Hm [Hle Hlt].
  assert (Hi : nth_error m (List.length l1) = Some e).
  { rewrite Hm, nth_error_app2, Nat.sub_diag by lia. reflexivity. }
  assert (Hi1 : nth_error m (S (List.length l1)) = Some e1).
  { rewrite Hm, nth_error_app2 by lia.
    replace (S (List.length l1) - List.length l1)%nat with 1%nat by lia.
    reflexivity. }
  assert (Hub : StdMap.upper_bound m s = S (List.length l1)).
  { apply upper_bound_eq; [assumption | | |].
    - unfold StdMap.size. rewrite Hm, length_app. simpl. lia.
    - intros i e' He' Hlti.
      assert (Hii : (i <= List.length l1)%nat) by lia.
      pose proof (ordered_nth_le m i _ e' e Hord He' Hi Hii). lra.
    - intros i e' He' Hlei.
      pose proof (ordered_nth_le m _ i e1 e' Hord Hi1 He' Hlei). lra. }
  unfold selected, StdMap.begin, StdMap.deref, StdMap.next. rewrite Hub.
  cbn [Nat.eqb negb Nat.sub]. rewrite Nat.sub_0_r. now split.
Qed.

(** From the key of the last entry on the lookup stays on the last entry,
    and there is no next one. *)
Lemma selected_last m s l1 e :
  StdMap.ordered m -> m = l1 ++ [e] -> fst e <= s ->
  StdMap.deref m (selected m s) = Some e /\
  StdMap.deref m (StdMap.next (selected m s)) = None.
Proof.
  intros Hord Hm Hle.
  assert (Hi : nth_error m (List.length l1) = Some e).
  { rewrite Hm, nth_error_app2, Nat.sub_diag by lia. reflexivity. }
  assert (Hlen : List.length m = S (List.length l1)).
  { rewrite Hm, length_app. simpl. lia. }
  assert (Hub : StdMap.upper_bound m s = S (List.length l1)).
  { apply upper_bound_eq; [assumption | unfold StdMap.size; lia | |].
    - intros i e' He' Hlti.
      assert (Hii : (i <= List.length l1)%nat) by lia.
      pose proof (ordered_nth_le m i _ e' e Hord He' Hi Hii). lra.
    - intros i e' He' Hlei.
      assert (i < List.length m)%nat by (apply nth_error_Some; congruence).
      lia. }
  unfold selected, StdMap.begin, StdMap.deref, StdMap.next. rewrite Hub.
  cbn [Nat.eqb negb Nat.sub]. rewrite Nat.sub_0_r. split; [assumption|].
  apply nth_error_None. lia.
Qed.

(** Below the key of the first entry the lookup stays on the first entry. *)
Lemma selected_first m s e l2 :
  StdMap.ordered m -> m = e :: l2 -> s < fst e ->
  StdMap.deref m (selected m s) = Some e /\
  StdMap.deref m (StdMap.next (selected m s)) = nth_error l2 0.
Proof.
  intros Hord Hm Hlt. subst m. destruct e as [k v]. simpl in Hlt.
  apply Rltb_true in Hlt.
  unfold selected, StdMap.begin, StdMap.deref, StdMap.next. simpl.
  rewrite Hlt. simpl. now split.
Qed.

End LookupPositions.

(** ** Lane sections, continued *)

Lemma staged_sections_ordered : StdMap.ordered staged_sections.
Proof. unfold StdMap.ordered; simpl. repeat constructor. lra. Qed.

Lemma get_lanesection_of_deref (r : Road.t) (s k : R) (p : LaneSection.ptr) :
  StdMap.deref (Road.s_to_lanesection r)
               (selected (Road.s_to_lanesection r) s) = Some (k, p) ->
  Road.get_lanesection r s = p.
Proof.
  intros He.
  assert (Hm : Road.s_to_lanesection r <> []).
  { intros E. rewrite E in He. discriminate He. }
  unfold Road.get_lanesection.
  apply size_pos_nonempty in Hm. rewrite Hm.
  fold (selected (Road.s_to_lanesection r) s). now rewrite He.
Qed.

(** X1.  A stored pointer is returned on the whole stretch from its own
    start up to the next start, and the last one from its start on: if
    [(k, p)] is stored, [k <= s] and no stored start lies in [(k, s]], then
    [get_lanesection s] is [p]; in particular it is the section [sec] when
    [p] points to [sec]. *)
Theorem get_lanesection_holds_until_next (r : Road.t) (s k : R)
    (p : LaneSection.ptr) :
  StdMap.ordered (Road.s_to_lanesection r) ->
  In (k, p) (Road.s_to_lanesection r) ->
  k <= s ->
  (forall e, In e (Road.s_to_lanesection r) -> k < fst e -> s < fst e) ->
  Road.get_lanesection r s = p.
Proof.
  intros Hord Hin Hle Hnext.
  apply (get_lanesection_of_deref r s k).
  apply selects_deref; [assumption|].
  split; [assumption|]. left. split; [assumption|].
  intros e' Hin' Hle'. simpl.
  destruct (Rle_lt_dec (fst e') k) as [H|H]; [exact H|].
  pose proof (Hnext e' Hin' H). lra.
Qed.

Lemma get_lanesection_holds_until_next_witness :
  Road.get_lanesection (straight_road 0 staged_sections) 49
    = Some (one_lane_section (left_lane [])) /\
  Road.get_lanesection (straight_road 0 staged_sections) 1000
    = Some later_section.
Proof.
  split.
  - apply (get_lanesection_holds_until_next _ 49 0).
    + exact staged_sections_ordered.
    + now left.
    + lra.
    + intros e [He|[He|[]]] Hlt; subst e; simpl in *; lra.
  - apply (get_lanesection_holds_until_next _ 1000 50).
    + exact staged_sections_ordered.
    + right. now left.
    + lra.
    + intros e [He|[He|[]]] Hlt; subst e; simpl in *; lra.
Defined.

(** X2.  Looking up at the start of a stored entry returns the pointer that
    entry stores: the section itself when it stores one. *)
Theorem get_lanesection_at_start (r : Road.t) (k : R) (p : LaneSection.ptr) :
  StdMap.ordered (Road.s_to_lanesection r) ->
  In (k, p) (Road.s_to_lanesection r) ->
  Road.get_lanesection r k = p.
Proof.
  intros Hord Hin.
  apply (get_lanesection_of_deref r k k).
  apply selects_deref; [assumption|].
  split; [assumption|]. left. split; [simpl; lra|].
  intros e' _ Hle'. exact Hle'.
Qed.

Lemma get_lanesection_at_start_witness :
  Road.get_lanesection (straight_road 0 staged_sections) 50
    = Some later_section.
Proof.
  apply (get_lanesection_at_start (straight_road 0 staged_sections) 50).
  - exact staged_sections_ordered.
  - right. now left.
Defined.

(** ** The set of lane sections *)

Section LaneSectionSets.

Variable lt : LaneSection.ptr -> LaneSection.ptr -> bool.

Lemma set_insert_members x l z :
  In z (set_insert lt x l) -> z = x \/ In z l.
Proof.
  induction l as [|y l IH]; simpl.
  - intros [H|[]]; auto.
  - destruct (lt x y); [|destruct (lt y x)]; simpl; intros H.
    + destruct H as [H|H]; auto.
    + destruct H as [H|H]; auto. destruct (IH H); auto.
    + auto.
Qed.

Lemma set_insert_keeps x l z : In z l -> In z (set_insert lt x l).
Proof.
  induction l as [|y l IH]; simpl; [tauto|].
  intros [H|H]; destruct (lt x y); [|destruct (lt y x)| |destruct (lt y x)];
    simpl; auto.
Qed.

Lemma set_insert_represents x l :
  In x (set_insert lt x l) \/ exists y, In y l /\ set_equiv lt x y.
Proof.
  induction l as [|y l IH]; simpl; [auto|].
  destruct (lt x y) eqn:Hxy; [simpl; auto|].
  destruct (lt y x) eqn:Hyx.
  - destruct IH as [H|(z & Hz & He)]; [left; simpl; auto|].
    right. exists z. auto.
  - right. exists y. split; [auto | now split].
Qed.

Lemma set_insert_length x l :
  (List.length (set_insert lt x l) <= S (List.length l))%nat.
Proof.
  induction l as [|y l IH]; simpl; [lia|].
  destruct (lt x y); [|destruct (lt y x)]; simpl; lia.
Qed.

Lemma set_insert_nonempty x l : set_insert lt x l <> [].
Proof.
  destruct l as [|y l]; simpl; [discriminate|].
  destruct (lt x y); [|destruct (lt y x)]; discriminate.
Qed.

(** The loop of [get_lanesections], started from any set. *)
Lemma insert_all_spec (m : StdMap.t LaneSection.ptr) (acc : list LaneSection.ptr) :
  let out := fold_left (fun l e => set_insert lt (snd e) l) m acc in
  (forall z, In z out -> In z acc \/ exists k, In (k, z) m) /\
  (forall z, In z acc -> In z out) /\
  (forall k sec, In (k, sec) m ->
     In sec out \/ exists y, In y out /\ set_equiv lt sec y) /\
  (List.length out <= List.length acc + List.length m)%nat.
Proof.
  revert acc. induction m as [|[k0 x] m IH]; intros acc; simpl.
  - split; [auto|]. split; [auto|]. split; [intros k sec []|lia].
  - destruct (IH (set_insert lt x acc)) as (Hfrom & Hkeep & Hrep & Hlen).
    split; [|split; [|split]].
    + intros z Hz. destruct (Hfrom z Hz) as [H|(k & H)].
      * destruct (set_insert_members _ _ _ H) as [->|H']; eauto.
      * eauto.
    + intros z Hz. apply Hkeep. now apply set_insert_keeps.
    + intros k sec [H|H].
      * inversion H; subst.
        destruct (set_insert_represents sec acc) as [Hi|(y & Hy & He)].
        -- left. now apply Hkeep.
        -- right. exists y. split; [|exact He].
           apply Hkeep. now apply set_insert_keeps.
      * eauto.
    + pose proof (set_insert_length x acc). lia.
Qed.

(** An element with no equivalent in the set is inserted. *)
Lemma set_insert_new x l :
  (forall y, In y l -> ~ set_equiv lt x y) -> In x (set_insert lt x l).
Proof.
  induction l as [|y l IH]; simpl; intros Hne; [now left|].
  destruct (lt x y) eqn:Hxy; [now left|].
  destruct (lt y x) eqn:Hyx.
  - right. apply IH. intros z Hz. apply Hne. now right.
  - exfalso. apply (Hne y); [now left | now split].
Qed.

(** Under a transitive comparator insertion keeps the set strictly
    increasing. *)
Lemma set_insert_sorted x l :
  (forall a b c, lt a b = true -> lt b c = true -> lt a c = true) ->
  StronglySorted (fun a b => lt a b = true) l ->
  StronglySorted (fun a b => lt a b = true) (set_insert lt x l).
Proof.
  intros Htrans. induction 1 as [|y l Hl IH Hy]; simpl.
  - repeat constructor.
  - destruct (lt x y) eqn:Hxy; [|destruct (lt y x) eqn:Hyx].
    + constructor; [now constructor|].
      constructor; [exact Hxy|].
      eapply Forall_impl; [|exact Hy]. intros z Hz. now apply (Htrans x y z).
    + constructor; [exact IH|].
      apply Forall_forall. intros z Hz.
      destruct (set_insert_members _ _ _ Hz) as [->|Hz']; [exact Hyx|].
      rewrite Forall_forall in Hy. now apply Hy.
    + now constructor.
Qed.

Lemma insert_all_sorted (m : StdMap.t LaneSection.ptr) :
  (forall a b c, lt a b = true -> lt b c = true -> lt a c = true) ->
  forall acc,
    StronglySorted (fun a b => lt a b = true) acc ->
    StronglySorted (fun a b => lt a b = true)
      (fold_left (fun l e => set_insert lt (snd e) l) m acc).
Proof.
  intros Htrans. induction m as [|e m IH]; intros acc Hacc; simpl; [exact Hacc|].
  apply IH. now apply set_insert_sorted.
Qed.

(** The first stored of equivalent sections is the one the loop keeps. *)
Lemma insert_all_first (l1 : StdMap.t LaneSection.ptr) (k : R)
    (x : LaneSection.ptr) (l2 : StdMap.t LaneSection.ptr) :
  (forall e, In e l1 -> ~ set_equiv lt x (snd e)) ->
  In x (fold_left (fun l e => set_insert lt (snd e) l)
                  (l1 ++ (k, x) :: l2) []).
Proof.
  intros Hne. rewrite fold_left_app. simpl.
  destruct (insert_all_spec l2
              (set_insert lt x
                 (fold_left (fun l e => set_insert lt (snd e) l) l1 [])))
    as (_ & Hkeep & _).
  apply Hkeep. apply set_insert_new.
  intros y Hy.
  destruct (insert_all_spec l1 []) as (Hfrom & _).
  destruct (Hfrom y Hy) as [[]|[k' Hk']].
  exact (Hne (k', y) Hk').
Qed.

Lemma sorted_not_equiv (l : list LaneSection.ptr) :
  StronglySorted (fun a b => lt a b = true) l ->
  ForallOrdPairs (fun a b => ~ set_equiv lt a b) l.
Proof.
  induction 1 as [|y l Hl IH Hy]; constructor; [|exact IH].
  eapply Forall_impl; [|exact Hy].
  intros z Hz [Hf _]. congruence.
Qed.

End LaneSectionSets.

(** X3.  Whatever the comparator of the set is, [get_lanesections] returns
    only pointers stored in the road, at most as many as are stored; every
    stored pointer is in the result or equivalent under the comparator to an
    element of it; a stored pointer that no pointer stored before it is
    equivalent to is itself in the result (of equivalent ones the first
    inserted wins); the result is empty exactly when nothing is stored.
    When the comparator is transitive the result is strictly increasing
    under it, so no two of its elements are equivalent. *)
Theorem get_lanesections_members lt (r : Road.t) :
  (forall p, In p (get_lanesections lt r) ->
     exists k, In (k, p) (Road.s_to_lanesection r)) /\
  (forall k p, In (k, p) (Road.s_to_lanesection r) ->
     In p (get_lanesections lt r) \/
     exists y, In y (get_lanesections lt r) /\ set_equiv lt p y) /\
  (forall l1 k p l2,
     Road.s_to_lanesection r = l1 ++ (k, p) :: l2 ->
     (forall e, In e l1 -> ~ set_equiv lt p (snd e)) ->
     In p (get_lanesections lt r)) /\
  ((forall a b c, lt a b = true -> lt b c = true -> lt a c = true) ->
   StronglySorted (fun a b => lt a b = true) (get_lanesections lt r) /\
   ForallOrdPairs (fun a b => ~ set_equiv lt a b) (get_lanesections lt r)) /\
  (List.length (get_lanesections lt r)
     <= StdMap.size (Road.s_to_lanesection r))%nat /\
  (get_lanesections lt r = [] <-> Road.s_to_lanesection r = []).
Proof.
  unfold get_lanesections, StdMap.size.
  destruct (insert_all_spec lt (Road.s_to_lanesection r) [])
    as (Hfrom & _ & Hrep & Hlen).
  cbv zeta in *. split; [|split; [|split; [|split; [|split]]]].
  - intros p Hp. destruct (Hfrom p Hp) as [[]|H]. exact H.
  - exact Hrep.
  - intros l1 k p l2 Hm Hne. rewrite Hm. now apply insert_all_first.
  - intros Htrans.
    assert (Hs : StronglySorted (fun a b => lt a b = true)
                   (fold_left (fun l e => set_insert lt (snd e) l)
                              (Road.s_to_lanesection r) []))
      by (apply insert_all_sorted; [exact Htrans | constructor]).
    split; [exact Hs | now apply sorted_not_equiv].
  - simpl in Hlen. exact Hlen.
  - split; intros H.
    + destruct (Road.s_to_lanesection r) as [|[k p] m]; [reflexivity|].
      exfalso. destruct (Hrep k p (or_introl eq_refl)) as [Hi|(y & Hy & _)].
      * rewrite H in Hi. destruct Hi.
      * rewrite H in Hy. destruct Hy.
    + rewrite H. reflexivity.
Qed.

Lemma get_lanesections_members_witness :
  In (Some later_section)
     (get_lanesections s0_lt (straight_road 0 staged_sections)).
Proof.
  destruct (get_lanesections_members s0_lt (straight_road 0 staged_sections))
    as (_ & _ & Hfirst & _).
  apply (Hfirst [(0, Some (one_lane_section (left_lane [])))] 50
                (Some later_section) []); [reflexivity|].
  intros e [He|[]] [_ Hlt]. subst e. unfold s0_lt in Hlt; simpl in Hlt.
  apply Rltb_false in Hlt. lra.
Defined.

Section OrderedInsertion.

Variable lt : LaneSection.ptr -> LaneSection.ptr -> bool.

Let before (x y : LaneSection.ptr) : Prop := lt x y = true /\ lt y x = false.

Lemma set_insert_last x l :
  Forall (fun y => before y x) l -> set_insert lt x l = l ++ [x].
Proof.
  induction 1 as [|y l [Hyx Hxy] _ IH]; simpl; [reflexivity|].
  now rewrite Hxy, Hyx, IH.
Qed.

Lemma insert_all_in_order (m : StdMap.t LaneSection.ptr) :
  forall acc,
    Forall (fun x => Forall (before x) (map snd m)) acc ->
    ForallOrdPairs before (map snd m) ->
    fold_left (fun l e => set_insert lt (snd e) l) m acc = acc ++ map snd m.
Proof.
  induction m as [|[k x] m IH]; intros acc Hacc Hm; simpl.
  - now rewrite app_nil_r.
  - simpl in Hm. inversion Hm as [|? ? Hx Hm']; subst.
    rewrite set_insert_last.
    + rewrite IH; [now rewrite <- app_assoc | | assumption].
      apply Forall_app. split.
      * eapply Forall_impl; [|exact Hacc]. intros a Ha. simpl in Ha.
        now inversion Ha.
      * constructor; [exact Hx | constructor].
    + eapply Forall_impl; [|exact Hacc]. intros a Ha. simpl in Ha.
      now inversion Ha.
Qed.

End OrderedInsertion.

(** X4.  When the comparator of the set puts every stored section before the
    sections stored after it, [get_lanesections] returns all the stored
    sections, each once, in the order of their starts. *)
Theorem get_lanesections_in_order lt (r : Road.t) :
  ForallOrdPairs (fun x y => lt x y = true /\ lt y x = false)
                 (map snd (Road.s_to_lanesection r)) ->
  get_lanesections lt r = map snd (Road.s_to_lanesection r).
Proof.
  intros H. unfold get_lanesections.
  now rewrite (insert_all_in_order lt (Road.s_to_lanesection r) [] (Forall_nil _) H).
Qed.

Lemma get_lanesections_in_order_witness :
  get_lanesections s0_lt (straight_road 0 staged_sections)
    = [Some (one_lane_section (left_lane [])); Some later_section].
Proof.
  apply (get_lanesections_in_order s0_lt (straight_road 0 staged_sections)).
  simpl. repeat constructor; unfold s0_lt; simpl.
  - apply Rltb_true. lra.
  - apply Rltb_false. lra.
Defined.

(** ** Crossfall, continued *)

(** X5.  A crossfall piece is never switched off on both sides: at every [s]
    at least one of the two sides receives the value of the selected piece,
    the other side receives that value or 0, and without a side tag stored
    under the start of the selected piece both sides receive the same. *)
Theorem get_crossfall_one_side_at_most (c : Crossfall.t) (s : R) :
  Crossfall.s_start_to_poly c <> [] ->
  exists k p,
    StdMap.deref (Crossfall.s_start_to_poly c)
                 (selected (Crossfall.s_start_to_poly c) s) = Some (k, p) /\
    (Crossfall.get_crossfall c s true = Poly3.get p s \/
     Crossfall.get_crossfall c s false = Poly3.get p s) /\
    (Crossfall.get_crossfall c s true = Poly3.get p s \/
     Crossfall.get_crossfall c s true = 0) /\
    (Crossfall.get_crossfall c s false = Poly3.get p s \/
     Crossfall.get_crossfall c s false = 0) /\
    (StdMap.find (Crossfall.sides c) k = None ->
     Crossfall.get_crossfall c s true = Crossfall.get_crossfall c s false).
Proof.
  intros Hm.
  destruct (get_crossfall_selected c s true Hm) as (k & p & He & Ht).
  destruct (get_crossfall_selected c s false Hm) as (k' & p' & He' & Hf).
  rewrite He in He'. inversion He'; subst k' p'.
  exists k, p. split; [exact He|].
  rewrite Ht, Hf. unfold side_of.
  destruct (StdMap.find (Crossfall.sides c) k) as [[| |]|]; simpl;
    repeat split; auto; discriminate.
Qed.

Lemma get_crossfall_one_side_at_most_witness :
  Crossfall.get_crossfall (left_only_crossfall 0) 5 true = 0.05 \/
  Crossfall.get_crossfall (left_only_crossfall 0) 5 false = 0.05.
Proof.
  destruct (get_crossfall_one_side_at_most (left_only_crossfall 0) 5)
    as (k & p & He & Hone & _); [discriminate|].
  assert (Hp : Poly3.get p 5 = 0.05).
  { unfold StdMap.deref, selected, left_only_crossfall, const_spline,
      Crossfall.s_start_to_poly, StdMap.begin in He; simpl in He.
    destruct (Rltb 5 0); simpl in He; inversion He; subst;
      unfold Poly3.get; simpl; lra. }
  rewrite <- Hp. exact Hone.
Defined.

(** ** The transformation frame, continued *)

Lemma dot_normalize_self (v : Vec3D) :
  0 < dot v v -> dot (normalize v) (normalize v) = 1.
Proof.
  intros H. pose proof (norm_pos v H) as Hn.
  rewrite dot_normalize_r, dot_normalize_l, <- norm_sqr. field. lra.
Qed.

Lemma dot_cross_left (g x : Vec3D) : dot g (crossProduct g x) = 0.
Proof. unfold dot, crossProduct; simpl. ring. Qed.

Lemma dot_gradient_lateral (g : Vec3D) (phi : R) :
  dot g (lateral_axis g phi) = v2 g * (tan phi * Rabs (v1 g)).
Proof. unfold dot, lateral_axis; simpl. ring. Qed.

(** The facts about the two axes that the statements below share. *)
Lemma frame_axes (r : Road.t) (s : R) :
  v0 (RefLine.get_grad (Road.ref_line r) s) <> 0 \/
  v1 (RefLine.get_grad (Road.ref_line r) s) <> 0 ->
  dot (col0 (Road.get_transformation_matrix r s))
      (col0 (Road.get_transformation_matrix r s)) = 1 /\
  dot (col1 (Road.get_transformation_matrix r s))
      (col1 (Road.get_transformation_matrix r s)) = 1 /\
  dot (col0 (Road.get_transformation_matrix r s))
      (col1 (Road.get_transformation_matrix r s)) = 0.
Proof.
  intros Hplanar.
  pose proof (lateral_axis_not_null _
                (CubicSpline.get (Road.superelevation r) s) Hplanar) as Hv.
  pose proof (cross_lateral_not_null _
                (CubicSpline.get (Road.superelevation r) s) Hplanar) as Hw.
  cbv zeta in Hw. rewrite <- col0_frame in Hw.
  split; [|split].
  - rewrite col0_frame. now apply dot_normalize_self.
  - rewrite col1_frame. now apply dot_normalize_self.
  - rewrite col1_frame, dot_normalize_r, dot_cross_self. unfold Rdiv. ring.
Qed.

(** X6.  The normal [e_h] is always perpendicular to the gradient of the
    reference line; the lateral axis [e_t] is perpendicular to it exactly
    when the product of the slope [g_z] and the lift term [tan(phi) |g_y|]
    is 0. *)
Theorem frame_axes_against_gradient (r : Road.t) (s : R) :
  let g := RefLine.get_grad (Road.ref_line r) s in
  let phi := CubicSpline.get (Road.superelevation r) s in
  v0 g <> 0 \/ v1 g <> 0 ->
  dot g (col1 (Road.get_transformation_matrix r s)) = 0 /\
  (dot g (col0 (Road.get_transformation_matrix r s)) = 0 <->
   v2 g * (tan phi * Rabs (v1 g)) = 0).
Proof.
  intros g phi Hplanar.
  pose proof (norm_pos _ (lateral_axis_not_null g phi Hplanar)) as Hn.
  split.
  - rewrite col1_frame. fold g.
    rewrite dot_normalize_r, dot_cross_left. unfold Rdiv. ring.
  - rewrite col0_frame. fold g phi.
    rewrite dot_normalize_r, dot_gradient_lateral.
    set (a := v2 g * (tan phi * Rabs (v1 g))).
    set (n := norm (lateral_axis g phi)) in *.
    split; intros H.
    + replace a with (a / n * n) by (field; lra). rewrite H. ring.
    + rewrite H. unfold Rdiv. ring.
Qed.

Lemma frame_axes_against_gradient_witness :
  dot (RefLine.get_grad (Road.ref_line (straight_road 0.1 plain_sections)) 50)
      (col1 (Road.get_transformation_matrix
               (straight_road 0.1 plain_sections) 50)) = 0.
Proof.
  destruct (frame_axes_against_gradient (straight_road 0.1 plain_sections) 50)
    as [H _]; [|exact H].
  left. rewrite straight_road_grad. simpl. lra.
Defined.

(** X7.  The coordinates [(t, h)] are metric in the cross-section: the
    squared distance from the point of the reference line to
    [get_xyz s t h] is [t^2 + h^2]. *)
Theorem get_xyz_distance (r : Road.t) (s t h : R) :
  let p0 := RefLine.get_xyz (Road.ref_line r) s in
  let p := Road.get_xyz r s t h in
  v0 (RefLine.get_grad (Road.ref_line r) s) <> 0 \/
  v1 (RefLine.get_grad (Road.ref_line r) s) <> 0 ->
  (v0 p - v0 p0) * (v0 p - v0 p0) + (v1 p - v1 p0) * (v1 p - v1 p0)
  + (v2 p - v2 p0) * (v2 p - v2 p0) = t * t + h * h.
Proof.
  intros p0 p Hplanar.
  destruct (frame_axes r s Hplanar) as (Htt & Hhh & Hth).
  unfold p. rewrite get_xyz_frame, col2_frame. fold p0.
  set (et := col0 (Road.get_transformation_matrix r s)) in *.
  set (eh := col1 (Road.get_transformation_matrix r s)) in *.
  unfold vadd, vscale; cbn [v0 v1 v2].
  replace (_ + _ + _)
    with (t * t * dot et et + 2 * t * h * dot et eh + h * h * dot eh eh)
    by (unfold dot; ring).
  rewrite Htt, Hhh, Hth. ring.
Qed.

Lemma get_xyz_distance_witness :
  (v0 (Road.get_xyz (straight_road 0.1 plain_sections) 50 1.5 2)
   - v0 (RefLine.get_xyz (Road.ref_line (straight_road 0.1 plain_sections)) 50))
  * (v0 (Road.get_xyz (straight_road 0.1 plain_sections) 50 1.5 2)
     - v0 (RefLine.get_xyz (Road.ref_line (straight_road 0.1 plain_sections)) 50))
  + (v1 (Road.get_xyz (straight_road 0.1 plain_sections) 50 1.5 2)
     - v1 (RefLine.get_xyz (Road.ref_line (straight_road 0.1 plain_sections)) 50))
    * (v1 (Road.get_xyz (straight_road 0.1 plain_sections) 50 1.5 2)
       - v1 (RefLine.get_xyz (Road.ref_line (straight_road 0.1 plain_sections)) 50))
  + (v2 (Road.get_xyz (straight_road 0.1 plain_sections) 50 1.5 2)
     - v2 (RefLine.get_xyz (Road.ref_line (straight_road 0.1 plain_sections)) 50))
    * (v2 (Road.get_xyz (straight_road 0.1 plain_sections) 50 1.5 2)
       - v2 (RefLine.get_xyz (Road.ref_line (straight_road 0.1 plain_sections)) 50))
  = 1.5 * 1.5 + 2 * 2.
Proof.
  apply (get_xyz_distance (straight_road 0.1 plain_sections) 50 1.5 2).
  left. rewrite straight_road_grad. simpl. lra.
Defined.

(** X8.  The superelevation tilts the lateral axis exactly where the lift
    term [tan(phi) |g_y|] is not 0: for [t <> 0] the point [get_xyz s t 0]
    is at the height of the reference line if and only if the lift term is
    0, and for [t > 0] it is above it when [tan(phi) > 0] and below it when
    [tan(phi) < 0], whatever the sign of [g_y <> 0] is. *)
Theorem superelevation_lift (r : Road.t) (s t : R) :
  let g := RefLine.get_grad (Road.ref_line r) s in
  let phi := CubicSpline.get (Road.superelevation r) s in
  let z0 := v2 (RefLine.get_xyz (Road.ref_line r) s) in
  v0 g <> 0 \/ v1 g <> 0 ->
  (t <> 0 ->
   (v2 (Road.get_xyz r s t 0) = z0 <-> tan phi * Rabs (v1 g) = 0)) /\
  (0 < t -> v1 g <> 0 -> 0 < tan phi -> z0 < v2 (Road.get_xyz r s t 0)) /\
  (0 < t -> v1 g <> 0 -> tan phi < 0 -> v2 (Road.get_xyz r s t 0) < z0).
Proof.
  intros g phi z0 Hplanar.
  pose proof (norm_pos _ (lateral_axis_not_null g phi Hplanar)) as Hn.
  assert (Hz : v2 (Road.get_xyz r s t 0)
               = z0 + t * (tan phi * Rabs (v1 g) / norm (lateral_axis g phi))).
  { rewrite get_xyz_frame, col2_frame, col0_frame. fold g phi.
    unfold z0, vadd, vscale, normalize; cbn [v0 v1 v2].
    unfold lateral_axis at 1; cbn [v0 v1 v2]. unfold Rdiv. ring. }
  set (n := norm (lateral_axis g phi)) in *.
  set (a := tan phi * Rabs (v1 g)) in *.
  rewrite Hz. split; [|split].
  - intros Ht. split; intros H.
    + assert (Hq : a / n = 0).
      { apply (Rmult_eq_reg_l t); [lra | exact Ht]. }
      replace a with (a / n * n) by (field; lra). rewrite Hq. ring.
    + rewrite H. unfold Rdiv. ring.
  - intros Ht Hy Hphi.
    assert (0 < a) by (apply Rmult_lt_0_compat; [exact Hphi | now apply Rabs_pos_lt]).
    assert (0 < a / n) by (now apply Rdiv_lt_0_compat).
    assert (0 < t * (a / n)) by (now apply Rmult_lt_0_compat). lra.
  - intros Ht Hy Hphi.
    assert (Hy' : 0 < Rabs (v1 g)) by (now apply Rabs_pos_lt).
    assert (0 < - a) by (unfold a; nra).
    assert (0 < - a / n) by (now apply Rdiv_lt_0_compat).
    assert (0 < t * (- a / n)) by (now apply Rmult_lt_0_compat).
    replace (t * (a / n)) with (- (t * (- a / n))) by (field; lra). lra.
Qed.

Lemma northbound_road_grad (phi s : R) :
  RefLine.get_grad (Road.ref_line (northbound_road phi)) s = mkVec3D 0 1 0.
Proof. simpl. now rewrite cos_PI2, sin_PI2. Qed.

Lemma northbound_road_xyz (phi s : R) :
  RefLine.get_xyz (Road.ref_line (northbound_road phi)) s = mkVec3D 0 s 0.
Proof. simpl. rewrite cos_PI2, sin_PI2. f_equal; ring. Qed.

Lemma tan_tenth_pos : 0 < tan 0.1.
Proof. apply tan_gt_0; [lra | pose proof PI2_1; lra]. Qed.

Lemma superelevation_lift_witness :
  v2 (RefLine.get_xyz (Road.ref_line (northbound_road 0.1)) 50)
  < v2 (Road.get_xyz (northbound_road 0.1) 50 1.5 0).
Proof.
  destruct (superelevation_lift (northbound_road 0.1) 50 1.5) as (_ & Hup & _).
  - right. rewrite northbound_road_grad. simpl. lra.
  - apply Hup.
    + lra.
    + rewrite northbound_road_grad. simpl. lra.
    + change (CubicSpline.get (Road.superelevation (northbound_road 0.1)) 50)
        with (CubicSpline.get (const_spline 0 0.1) 50).
      rewrite const_spline_get. exact tan_tenth_pos.
Defined.

Lemma norm_one (x y z : R) :
  x * x + y * y + z * z = 1 -> norm (mkVec3D x y z) = 1.
Proof. intros H. unfold norm, dot; cbn [v0 v1 v2]. rewrite H. apply sqrt_1. Qed.

(** X9.  On a road that is level along [s] ([g_z = 0]), has a unit planar
    tangent and no superelevation at [s], the frame is the plain one: [t]
    moves the point horizontally along the left normal [(-g_y, g_x)] and
    [h] moves it straight up. *)
Theorem get_xyz_flat_frame (r : Road.t) (s t h : R) :
  let g := RefLine.get_grad (Road.ref_line r) s in
  let p0 := RefLine.get_xyz (Road.ref_line r) s in
  v2 g = 0 ->
  v0 g * v0 g + v1 g * v1 g = 1 ->
  CubicSpline.get (Road.superelevation r) s = 0 ->
  Road.get_xyz r s t h =
    mkVec3D (v0 p0 - t * v1 g) (v1 p0 + t * v0 g) (v2 p0 + h).
Proof.
  intros g p0 Hgz Hunit Hphi.
  assert (Ht : col0 (Road.get_transformation_matrix r s)
               = mkVec3D (- v1 g) (v0 g) 0).
  { rewrite col0_frame, Hphi. fold g.
    unfold normalize, lateral_axis; cbn [v0 v1 v2]. rewrite tan_0.
    rewrite norm_one by (rewrite <- Hunit; ring). f_equal; field. }
  assert (Hh : col1 (Road.get_transformation_matrix r s) = mkVec3D 0 0 1).
  { rewrite col1_frame, Ht. fold g.
    unfold normalize, crossProduct; cbn [v0 v1 v2]. rewrite Hgz.
    replace (v0 g * v0 g - v1 g * - v1 g) with 1 by (rewrite <- Hunit; ring).
    rewrite norm_one by ring. f_equal; field. }
  rewrite get_xyz_frame, col2_frame, Ht, Hh. fold p0.
  unfold vadd, vscale; cbn [v0 v1 v2]. f_equal; ring.
Qed.

Lemma get_xyz_flat_frame_witness :
  Road.get_xyz (northbound_road 0) 50 1.5 2 = mkVec3D (-1.5) 50 2.
Proof.
  rewrite (get_xyz_flat_frame (northbound_road 0) 50 1.5 2).
  - rewrite northbound_road_grad, northbound_road_xyz; cbn [v0 v1 v2].
    f_equal; lra.
  - rewrite northbound_road_grad. reflexivity.
  - rewrite northbound_road_grad; cbn [v0 v1]. ring.
  - apply const_spline_get.
Defined.

(** X10.  On a road that runs along the y-axis at [s] ([g_x = 0],
    [|g_y| = 1]) with [cos(phi) > 0], the lateral axis is rolled by exactly
    [phi]: [get_xyz s t 0] lies [t sin(phi)] above the reference line. *)
Theorem get_xyz_roll_along_y (r : Road.t) (s t : R) :
  let g := RefLine.get_grad (Road.ref_line r) s in
  let phi := CubicSpline.get (Road.superelevation r) s in
  v0 g = 0 -> Rabs (v1 g) = 1 -> 0 < cos phi ->
  v2 (Road.get_xyz r s t 0)
    = v2 (RefLine.get_xyz (Road.ref_line r) s) + t * sin phi.
Proof.
  intros g phi Hgx Hgy Hcos.
  assert (Hsq : v1 g * v1 g = 1).
  { rewrite <- (Rabs_right (v1 g * v1 g)) by nra.
    rewrite Rabs_mult, Hgy. ring. }
  assert (Hn : norm (lateral_axis g phi) = / cos phi).
  { unfold norm. apply sqrt_lem_1.
    - apply dot_self_nonneg.
    - apply Rlt_le. now apply Rinv_0_lt_compat.
    - unfold dot, lateral_axis; cbn [v0 v1 v2]. rewrite Hgx, Hgy.
      unfold tan.
      replace (- v1 g * - v1 g) with 1 by (rewrite <- Hsq; ring).
      pose proof (sin2_cos2 phi) as Hsc. unfold Rsqr in Hsc.
      replace (1 + 0 * 0 + sin phi / cos phi * 1 * (sin phi / cos phi * 1))
        with ((sin phi * sin phi + cos phi * cos phi) / (cos phi * cos phi))
        by (field; lra).
      rewrite Hsc. field. lra. }
  rewrite get_xyz_frame, col2_frame, col0_frame. fold g phi.
  unfold vadd, vscale, normalize; cbn [v0 v1 v2]. rewrite Hn.
  unfold lateral_axis; cbn [v0 v1 v2]. rewrite Hgy. unfold tan.
  field. lra.
Qed.

Lemma get_xyz_roll_along_y_witness :
  v2 (Road.get_xyz (northbound_road 0.1) 50 1.5 0) = 1.5 * sin 0.1.
Proof.
  assert (Hphi : CubicSpline.get (Road.superelevation (northbound_road 0.1)) 50
                 = 0.1)
    by apply const_spline_get.
  rewrite (get_xyz_roll_along_y (northbound_road 0.1) 50 1.5).
  - rewrite Hphi, northbound_road_xyz; cbn [v2]. ring.
  - rewrite northbound_road_grad. reflexivity.
  - rewrite northbound_road_grad; cbn [v1]. apply Rabs_R1.
  - rewrite Hphi. apply cos_gt_0; pose proof PI2_1; lra.
Defined.

(** ** Height offsets along [s] *)

Section HeightOffsets.

Variables (lane : Lane.t) (s t h : R).

Let offs := Lane.s_to_height_offset lane.
Let p_t := p_t_of t (CubicSpline.get (Lane.inner_border lane) s)
                    (CubicSpline.get (Lane.outer_border lane) s).

(** The height-offset step once the entry under the iterator is known. *)
Lemma offset_h_t_of_deref k cur :
  StdMap.deref offs (selected offs s) = Some (k, cur) ->
  Road.offset_h_t lane s t h =
    match StdMap.deref offs (StdMap.next (selected offs s)) with
    | Some (k', nxt) =>
        h + base_contribution p_t cur
        + (p_t * ((outer nxt - outer cur) / (k' - k) * (s - k)
                  - (inner nxt - inner cur) / (k' - k) * (s - k))
           + (inner nxt - inner cur) / (k' - k) * (s - k))
    | None => h + base_contribution p_t cur
    end.
Proof.
  intros He.
  assert (Hm : offs <> []) by (intros E; rewrite E in He; discriminate He).
  assert (Hp : (if negb (Reqb (CubicSpline.get (Lane.outer_border lane) s)
                              (CubicSpline.get (Lane.inner_border lane) s))
                then (t - CubicSpline.get (Lane.inner_border lane) s)
                     / (CubicSpline.get (Lane.outer_border lane) s
                        - CubicSpline.get (Lane.inner_border lane) s)
                else 0) = p_t).
  { unfold p_t, p_t_of. now destruct (Reqb _ _). }
  unfold Road.offset_h_t.
  apply size_pos_nonempty in Hm. unfold offs in Hm. rewrite Hm.
  fold offs. fold (selected offs s). rewrite He. cbv zeta. rewrite Hp.
  destruct (StdMap.deref offs (StdMap.next (selected offs s)))
    as [[k' nxt]|]; reflexivity.
Qed.

End HeightOffsets.

(** At the key of an entry the step adds the base contribution of that entry
    and nothing else. *)
Lemma offset_h_t_key (lane : Lane.t) (k t h : R) cur :
  StdMap.ordered (Lane.s_to_height_offset lane) ->
  In (k, cur) (Lane.s_to_height_offset lane) ->
  Road.offset_h_t lane k t h =
    h + base_contribution
          (p_t_of t (CubicSpline.get (Lane.inner_border lane) k)
                    (CubicSpline.get (Lane.outer_border lane) k)) cur.
Proof.
  intros Hord Hin.
  assert (He : StdMap.deref (Lane.s_to_height_offset lane)
                 (selected (Lane.s_to_height_offset lane) k) = Some (k, cur)).
  { apply selects_deref; [assumption|].
    split; [assumption|]. left. split; [simpl; lra|].
    intros e' _ Hle. exact Hle. }
  rewrite (offset_h_t_of_deref lane k t h k cur He).
  destruct (StdMap.deref _ (StdMap.next _)) as [[k' nxt]|]; [|reflexivity].
  unfold Rdiv. ring.
Qed.

Lemma consecutive_keys_lt {V} (m : StdMap.t V) l1 l2 e e1 :
  StdMap.ordered m -> m = l1 ++ e :: e1 :: l2 -> fst e < fst e1.
Proof.
  intros Hord Hm.
  apply (ordered_nth_lt m (List.length l1) (S (List.length l1))); auto.
  - rewrite Hm, nth_error_app2, Nat.sub_diag by lia. reflexivity.
  - rewrite Hm, nth_error_app2 by lia.
    replace (S (List.length l1) - List.length l1)%nat with 1%nat by lia.
    reflexivity.
Qed.

(** The step between two consecutive entries, for [s] from the key of the
    first to the key of the second, both included. *)
Lemma offset_h_t_segment (lane : Lane.t) (s t h : R) l1 l2 k cur k' nxt :
  StdMap.ordered (Lane.s_to_height_offset lane) ->
  Lane.s_to_height_offset lane = l1 ++ (k, cur) :: (k', nxt) :: l2 ->
  k <= s <= k' ->
  let p_t := p_t_of t (CubicSpline.get (Lane.inner_border lane) s)
                      (CubicSpline.get (Lane.outer_border lane) s) in
  Road.offset_h_t lane s t h =
    h + lerp k k' s (base_contribution p_t cur) (base_contribution p_t nxt).
Proof.
  intros Hord Hm [Hlo Hhi] p_t.
  pose proof (consecutive_keys_lt _ _ _ _ _ Hord Hm) as Hlt. simpl in Hlt.
  destruct (Rle_lt_or_eq_dec s k' Hhi) as [Hs|Hs].
  - destruct (selected_between _ s l1 l2 (k, cur) (k', nxt) Hord Hm)
      as [He Hn]; [simpl; lra|].
    rewrite (offset_h_t_of_deref lane s t h k cur He), Hn.
    fold p_t. unfold lerp, base_contribution. field. lra.
  - subst s.
    rewrite (offset_h_t_key lane k' t h nxt Hord).
    + fold p_t. unfold lerp. field. lra.
    + rewrite Hm. apply in_or_app. right. right. now left.
Qed.

(** X11.  At the key of an entry the height added is the base contribution
    [p_t (outer - inner) + inner] of that very entry, whether or not another
    entry follows. *)
Theorem height_offset_at_key (lane : Lane.t) (k t h_t : R) cur :
  StdMap.ordered (Lane.s_to_height_offset lane) ->
  In (k, cur) (Lane.s_to_height_offset lane) ->
  let t_in := CubicSpline.get (Lane.inner_border lane) k in
  let t_out := CubicSpline.get (Lane.outer_border lane) k in
  let p_t := if Reqb t_out t_in then 0 else (t - t_in) / (t_out - t_in) in
  Road.offset_h_t lane k t h_t = h_t + (p_t * (outer cur - inner cur) + inner cur).
Proof. intros Hord Hin. exact (offset_h_t_key lane k t h_t cur Hord Hin). Qed.

Lemma height_offset_at_key_witness :
  Road.offset_h_t (left_lane two_offsets) 10 3 0 = 0 + (1 * (0.2 - 0.05) + 0.05).
Proof.
  rewrite (height_offset_at_key (left_lane two_offsets) 10 3 0
             (mkHeightOffset 0.05 0.2)).
  - destruct (left_lane_borders two_offsets 10) as [-> ->].
    assert (Hw : Reqb 3 0 = false) by (apply Reqb_false; lra).
    rewrite Hw. cbn [inner outer].
    replace ((3 - 0) / (3 - 0)) with 1 by (field; lra). reflexivity.
  - exact two_offsets_ordered.
  - right. now left.
Defined.

(** X12.  Between two consecutive entries at [k] and [k'] the height added is
    the linear interpolation in [s] of their base contributions, on the
    whole of [[k, k']]: the added height is continuous where the lookup
    moves on to the next entry. *)
Theorem height_offset_interpolates (lane : Lane.t) (s t h_t : R)
    l1 l2 k cur k' nxt :
  StdMap.ordered (Lane.s_to_height_offset lane) ->
  Lane.s_to_height_offset lane = l1 ++ (k, cur) :: (k', nxt) :: l2 ->
  k <= s <= k' ->
  let t_in := CubicSpline.get (Lane.inner_border lane) s in
  let t_out := CubicSpline.get (Lane.outer_border lane) s in
  let p_t := if Reqb t_out t_in then 0 else (t - t_in) / (t_out - t_in) in
  let base_cur := p_t * (outer cur - inner cur) + inner cur in
  let base_nxt := p_t * (outer nxt - inner nxt) + inner nxt in
  Road.offset_h_t lane s t h_t
    = h_t + (base_cur + (base_nxt - base_cur) / (k' - k) * (s - k)).
Proof.
  intros Hord Hm Hs.
  exact (offset_h_t_segment lane s t h_t l1 l2 k cur k' nxt Hord Hm Hs).
Qed.

Lemma height_offset_interpolates_witness :
  Road.offset_h_t (left_lane two_offsets) 5 3 0 = 0.15 /\
  Road.offset_h_t (left_lane two_offsets) 10 3 0 = 0.2.
Proof.
  assert (Hw : Reqb 3 0 = false) by (apply Reqb_false; lra).
  split.
  - rewrite (height_offset_interpolates (left_lane two_offsets) 5 3 0
               [] [] 0 (mkHeightOffset 0 0.1) 10 (mkHeightOffset 0.05 0.2)).
    + destruct (left_lane_borders two_offsets 5) as [-> ->].
      rewrite Hw. cbn [inner outer].
      replace ((3 - 0) / (3 - 0)) with 1 by (field; lra). lra.
    + exact two_offsets_ordered.
    + reflexivity.
    + lra.
  - rewrite (height_offset_interpolates (left_lane two_offsets) 10 3 0
               [] [] 0 (mkHeightOffset 0 0.1) 10 (mkHeightOffset 0.05 0.2)).
    + destruct (left_lane_borders two_offsets 10) as [-> ->].
      rewrite Hw. cbn [inner outer].
      replace ((3 - 0) / (3 - 0)) with 1 by (field; lra). lra.
    + exact two_offsets_ordered.
    + reflexivity.
    + lra.
Defined.

(** X13.  From the key of the last entry on, the height added no longer
    depends on [s] through the offsets: it is the base contribution of the
    last entry.  With a single entry this holds for every [s], below its key
    as well. *)
Theorem height_offset_after_last (lane : Lane.t) (s t h_t : R) l1 k cur :
  StdMap.ordered (Lane.s_to_height_offset lane) ->
  Lane.s_to_height_offset lane = l1 ++ [(k, cur)] ->
  k <= s \/ l1 = [] ->
  let t_in := CubicSpline.get (Lane.inner_border lane) s in
  let t_out := CubicSpline.get (Lane.outer_border lane) s in
  let p_t := if Reqb t_out t_in then 0 else (t - t_in) / (t_out - t_in) in
  Road.offset_h_t lane s t h_t = h_t + (p_t * (outer cur - inner cur) + inner cur).
Proof.
  intros Hord Hm Hs t_in t_out p_t.
  assert (He : StdMap.deref (Lane.s_to_height_offset lane)
                 (selected (Lane.s_to_height_offset lane) s) = Some (k, cur)
               /\ StdMap.deref (Lane.s_to_height_offset lane)
                    (StdMap.next (selected (Lane.s_to_height_offset lane) s))
                  = None).
  { destruct (Rle_lt_dec k s) as [Hle|Hlt].
    - exact (selected_last _ s l1 (k, cur) Hord Hm Hle).
    - destruct Hs as [Hs| ->]; [lra|]. simpl in Hm.
      exact (selected_first _ s (k, cur) [] Hord Hm Hlt). }
  destruct He as [He Hn].
  rewrite (offset_h_t_of_deref lane s t h_t k cur He), Hn. reflexivity.
Qed.

Lemma height_offset_after_last_witness :
  Road.offset_h_t (left_lane two_offsets) 1000 3 0 = 0.2.
Proof.
  rewrite (height_offset_after_last (left_lane two_offsets) 1000 3 0
             [(0, mkHeightOffset 0 0.1)] 10 (mkHeightOffset 0.05 0.2)).
  - destruct (left_lane_borders two_offsets 1000) as [-> ->].
    assert (Hw : Reqb 3 0 = false) by (apply Reqb_false; lra).
    rewrite Hw. cbn [inner outer].
    replace ((3 - 0) / (3 - 0)) with 1 by (field; lra). lra.
  - exact two_offsets_ordered.
  - reflexivity.
  - left. lra.
Defined.

(** X14.  Below the key of the first entry the lookup stays on the first
    entry, and when a second entry exists the correction is still added,
    with a negative [s - k]: the height added is the line through the first
    two entries continued backwards, not the value of the first entry. *)
Theorem height_offset_before_first (lane : Lane.t) (s t h_t : R)
    l2 k cur k' nxt :
  StdMap.ordered (Lane.s_to_height_offset lane) ->
  Lane.s_to_height_offset lane = (k, cur) :: (k', nxt) :: l2 ->
  s < k ->
  let t_in := CubicSpline.get (Lane.inner_border lane) s in
  let t_out := CubicSpline.get (Lane.outer_border lane) s in
  let p_t := if Reqb t_out t_in then 0 else (t - t_in) / (t_out - t_in) in
  let base_cur := p_t * (outer cur - inner cur) + inner cur in
  let base_nxt := p_t * (outer nxt - inner nxt) + inner nxt in
  Road.offset_h_t lane s t h_t
    = h_t + (base_cur - (base_nxt - base_cur) / (k' - k) * (k - s)).
Proof.
  intros Hord Hm Hs t_in t_out p_t base_cur base_nxt.
  pose proof (consecutive_keys_lt _ [] l2 (k, cur) (k', nxt) Hord Hm) as Hlt.
  simpl in Hlt.
  destruct (selected_first _ s (k, cur) ((k', nxt) :: l2) Hord Hm Hs)
    as [He Hn].
  rewrite (offset_h_t_of_deref lane s t h_t k cur He), Hn. simpl.
  fold t_in t_out. unfold p_t_of. fold p_t.
  unfold base_contribution. fold base_cur.
  unfold base_cur, base_nxt. field. lra.
Qed.

Lemma height_offset_before_first_witness :
  Road.offset_h_t (left_lane two_offsets) (-10) 3 0 = 0.
Proof.
  rewrite (height_offset_before_first (left_lane two_offsets) (-10) 3 0
             [] 0 (mkHeightOffset 0 0.1) 10 (mkHeightOffset 0.05 0.2)).
  - destruct (left_lane_borders two_offsets (-10)) as [-> ->].
    assert (Hw : Reqb 3 0 = false) by (apply Reqb_false; lra).
    rewrite Hw. cbn [inner outer].
    replace ((3 - 0) / (3 - 0)) with 1 by (field; lra). lra.
  - exact two_offsets_ordered.
  - reflexivity.
  - lra.
Defined.

(** X15.  Between two consecutive entries, on the inner border of the lane
    the height added is the interpolated inner offset, on the outer border
    of a lane of non-zero width it is the interpolated outer offset, and on
    a lane of zero width it is the interpolated inner offset for every [t]:
    the quotient that defines [p_t] is not formed. *)
Theorem height_offset_on_borders (lane : Lane.t) (s h_t : R)
    l1 l2 k cur k' nxt :
  StdMap.ordered (Lane.s_to_height_offset lane) ->
  Lane.s_to_height_offset lane = l1 ++ (k, cur) :: (k', nxt) :: l2 ->
  k <= s <= k' ->
  let t_in := CubicSpline.get (Lane.inner_border lane) s in
  let t_out := CubicSpline.get (Lane.outer_border lane) s in
  Road.offset_h_t lane s t_in h_t
    = h_t + (inner cur + (inner nxt - inner cur) / (k' - k) * (s - k)) /\
  (t_out <> t_in ->
   Road.offset_h_t lane s t_out h_t
     = h_t + (outer cur + (outer nxt - outer cur) / (k' - k) * (s - k))) /\
  (t_out = t_in ->
   forall t, Road.offset_h_t lane s t h_t
     = h_t + (inner cur + (inner nxt - inner cur) / (k' - k) * (s - k))).
Proof.
  intros Hord Hm Hs t_in t_out.
  pose proof (consecutive_keys_lt _ _ _ _ _ Hord Hm) as Hlt. simpl in Hlt.
  assert (Hseg : forall t,
             Road.offset_h_t lane s t h_t =
             h_t + lerp k k' s
                     (base_contribution (p_t_of t t_in t_out) cur)
                     (base_contribution (p_t_of t t_in t_out) nxt))
    by (intros t; exact (offset_h_t_segment lane s t h_t _ _ _ _ _ _ Hord Hm Hs)).
  split; [|split].
  - rewrite Hseg. unfold p_t_of, lerp, base_contribution.
    destruct (Reqb t_out t_in) eqn:E.
    + field. lra.
    + apply Reqb_false in E. field. split; lra.
  - intros Hw. rewrite Hseg. unfold p_t_of, lerp, base_contribution.
    pose proof Hw as E. apply Reqb_false in E. rewrite E. field. split; lra.
  - intros Hw t. rewrite Hseg. unfold p_t_of, lerp, base_contribution.
    pose proof Hw as E. apply Reqb_true in E. rewrite E. field. lra.
Qed.

Lemma height_offset_on_borders_witness :
  Road.offset_h_t (left_lane two_offsets) 5 0 0 = 0.025 /\
  Road.offset_h_t (left_lane two_offsets) 5 3 0 = 0.15.
Proof.
  destruct (left_lane_borders two_offsets 5) as [Hin Hout].
  destruct (height_offset_on_borders (left_lane two_offsets) 5 0
              [] [] 0 (mkHeightOffset 0 0.1) 10 (mkHeightOffset 0.05 0.2)
              two_offsets_ordered eq_refl)
    as (Hi & Ho & _); [lra|].
  rewrite Hin in Hi. rewrite Hin, Hout in Ho. split.
  - rewrite Hi. cbn [inner outer]. lra.
  - rewrite Ho by lra. cbn [inner outer]. lra.
Defined.

(** ** The surface point, continued *)

(** X16.  On the reference line itself ([t = 0]) the surface of a lane that
    is not level and carries no height offsets passes through the point of
    the reference line, whatever the crossfall and the superelevation are,
    and nothing is printed. *)
Theorem get_surface_pt_on_reference_line (r : Road.t) (s : R) ls lane :
  Road.get_lanesection r s = Some ls ->
  LaneSection.get_lane ls s 0 = Some lane ->
  Lane.level lane = false ->
  Lane.s_to_height_offset lane = [] ->
  v0 (RefLine.get_grad (Road.ref_line r) s) <> 0 \/
  v1 (RefLine.get_grad (Road.ref_line r) s) <> 0 ->
  Road.get_surface_pt r s 0 = ([], Some (RefLine.get_xyz (Road.ref_line r) s)).
Proof.
  intros Hls Hlane Hlevel Hoffs _.
  rewrite (get_surface_pt_resolved r s 0 ls lane Hls Hlane).
  rewrite (offset_h_t_empty lane s 0 _ Hoffs).
  unfold Road.slope_h_t. rewrite Hlevel, Rabs_R0, Rmult_0_r.
  rewrite get_xyz_frame, col2_frame.
  do 2 f_equal.
  destruct (RefLine.get_xyz (Road.ref_line r) s) as [x y z].
  unfold vadd, vscale; cbn [v0 v1 v2]. f_equal; ring.
Qed.

Lemma get_surface_pt_on_reference_line_witness :
  Road.get_surface_pt (straight_road 0.1 plain_sections) 50 0
    = ([], Some (mkVec3D 50 0 0)).
Proof.
  destruct (plain_road_resolves 0.1 50 0 []) as [Hls Hlane].
  rewrite <- (straight_road_xyz 0.1 plain_sections 50).
  apply (get_surface_pt_on_reference_line _ 50 _ _ Hls Hlane).
  - reflexivity.
  - reflexivity.
  - left. rewrite straight_road_grad. simpl. lra.
Defined.

(** X17.  On a road whose crossfall has no piece, a lane that is not level
    and carries no height offsets lies in the plane of the frame: the
    surface point is [get_xyz s t 0], the same point the missing-section
    fallback returns, but without the diagnostic. *)
Theorem get_surface_pt_without_crossfall (r : Road.t) (s t : R) ls lane :
  Road.get_lanesection r s = Some ls ->
  LaneSection.get_lane ls s t = Some lane ->
  Lane.level lane = false ->
  Lane.s_to_height_offset lane = [] ->
  Crossfall.s_start_to_poly (Road.crossfall r) = [] ->
  Road.get_surface_pt r s t = ([], Some (Road.get_xyz r s t 0)).
Proof.
  intros Hls Hlane Hlevel Hoffs Hcf.
  rewrite (get_surface_pt_resolved r s t ls lane Hls Hlane).
  rewrite (offset_h_t_empty lane s t _ Hoffs).
  unfold Road.slope_h_t. rewrite Hlevel.
  unfold Crossfall.get_crossfall. rewrite Hcf. simpl.
  rewrite tan_0. do 3 f_equal. ring.
Qed.

Lemma get_surface_pt_without_crossfall_witness :
  Road.get_surface_pt (straight_road 0.1 plain_sections) 50 1.5
    = ([], Some (Road.get_xyz (straight_road 0.1 plain_sections) 50 1.5 0)).
Proof.
  destruct (plain_road_resolves 0.1 50 1.5 []) as [Hls Hlane].
  apply (get_surface_pt_without_crossfall _ 50 1.5 _ _ Hls Hlane);
    reflexivity.
Defined.
